(** * The voice assistant of examples/assistant/assistant.cpp

    A shallow embedding of the wake-word matcher, the ollama reply
    extraction and the polling loop of [main], with the properties of the
    activation state machine proved over it. *)

From Stdlib Require Import ZArith List String Ascii Bool Lia.
Import ListNotations.

Local Open Scope string_scope.
Local Open Scope Z_scope.

(** ** std::string primitives used by the program *)

Module StdString.

(** [size_t] is a 64-bit unsigned integer; [npos] is its largest value. *)
Definition size_t_modulus : Z := 2 ^ 64.
Definition npos : Z := size_t_modulus - 1.
Definition size_t_wrap (z : Z) : Z := z mod size_t_modulus.

Definition size (s : string) : Z := Z.of_nat (String.length s).

(** The characters of [s] from index [n] on (all of them gone when [n]
    passes the end). *)
Fixpoint skip (n : nat) (s : string) : string :=
  match n, s with
  | O, _ => s
  | S _, EmptyString => EmptyString
  | S n', String _ s' => skip n' s'
  end.

(** The first [n] characters of [s] (fewer when [s] is shorter). *)
Fixpoint take (n : nat) (s : string) : string :=
  match n, s with
  | O, _ => EmptyString
  | S _, EmptyString => EmptyString
  | S n', String c s' => String c (take n' s')
  end.

(** The search loop of [find]: [s] is the text from index [i] on; the
    lowest index at which [pat] starts, [npos] when there is none. *)
Fixpoint find_here (s pat : string) (i : Z) : Z :=
  if String.prefix pat s then i
  else match s with
       | EmptyString => npos
       | String _ s' => find_here s' pat (i + 1)
       end.

(** [s.find(pat, pos)]. *)
Definition find (s pat : string) (pos : Z) : Z :=
  if size s <? pos then npos
  else find_here (skip (Z.to_nat pos) s) pat pos.

(** [s.substr(pos, count)]: [None] stands for the [std::out_of_range]
    thrown when [pos > s.size()]. *)
Definition substr (s : string) (pos count : Z) : option string :=
  if size s <? pos then None
  else Some (take (Z.to_nat count) (skip (Z.to_nat pos) s)).

End StdString.

Import StdString.

(** ** The wake-word matcher *)

(** [text.find(wake_word) != std::string::npos] *)
Definition contains_wake_word (text wake_word : string) : bool :=
  negb (find text wake_word 0 =? npos).

(** [W] occurs in [S] as a block of consecutive characters, compared
    character by character (so upper and lower case differ). *)
Definition contiguous_substring (W S : string) : Prop :=
  exists pre post : string, S = pre ++ W ++ post.

(** ** The reply extraction of [call_ollama] *)

Definition dquote : ascii := "034"%char.
Definition newline : ascii := "010"%char.

(** The C++ literal [q]: a string made of one double quote. *)
Definition quote_str : string := String dquote EmptyString.

(** The C++ literal [q response q :] (11 characters), the first search
    pattern of the parse loop. *)
Definition response_key : string :=
  String dquote ("response" ++ String dquote ":").

(** The C++ literal [q response q : q] (12 characters), the second search
    pattern of the parse loop. *)
Definition response_open : string := response_key ++ quote_str.

(** What libcurl reports for one request: the result code of
    [curl_easy_perform], with the chunks it handed to the write callback
    when the transfer succeeded. *)
Inductive curl_result : Type :=
| CURLE_OK (chunks : list string)
| CURLE_error (code : Z).

(** [WriteCallback]: append the chunk to [response->data]. *)
Definition WriteCallback (contents : string) (response : string) : string :=
  response ++ contents.

(** The lines [std::getline] yields over a stream holding [s]: [line] is
    the line being read and [any] tells whether a character of it has been
    read; a last line not closed by a newline is yielded too, an empty rest
    after the last newline is not. *)
Fixpoint getlines (s : string) (line : string) (any : bool) : list string :=
  match s with
  | EmptyString => if any then [line] else []
  | String c s' =>
      if Ascii.eqb c newline then line :: getlines s' EmptyString false
      else getlines s' (line ++ String c EmptyString) true
  end.

(** The body of the [while (std::getline ...)] loop on one line, [result]
    being the reply built so far; [None] when [substr] throws. *)
Definition parse_line (result line : string) : option string :=
  if negb (find line response_key 0 =? npos) then
    let start := size_t_wrap (find line response_open 0 + 11) in
    let end_ := find line quote_str start in
    if negb (start =? npos) && negb (end_ =? npos) then
      match substr line start (size_t_wrap (end_ - start)) with
      | Some fragment => Some (result ++ fragment)
      | None => None
      end
    else Some result
  else Some result.

Fixpoint parse_lines (result : string) (lines : list string) : option string :=
  match lines with
  | [] => Some result
  | line :: rest =>
      match parse_line result line with
      | Some result' => parse_lines result' rest
      | None => None
      end
  end.

(** What the program prints, on stdout (the first five) and on stderr. *)
Inductive event : Type :=
| Activated                      (* [Assistant activated] *)
| PartialText (text : string)    (* printf("%s", text) *)
| Finalize (utterance : string)  (* [Processing: %s] *)
| Reply (response : string)      (* [Assistant]: %s *)
| Waiting                        (* [Waiting for wake word '%s'] *)
| TranscribeFailed               (* Failed to process audio *)
| CurlFailed (code : Z).         (* curl_easy_perform() failed: %s *)

(** The JSON request body built from the prompt. *)
Definition json_body (prompt : string) : string :=
  "{" ++ quote_str ++ "model" ++ quote_str ++ ": " ++ quote_str ++ "qwen2.5"
      ++ quote_str ++ ", " ++ quote_str ++ "prompt" ++ quote_str ++ ": "
      ++ quote_str ++ prompt ++ quote_str ++ "}".

(** [call_ollama(prompt)]: [curl_easy_init] tells whether a handle was
    obtained and [curl_easy_perform] answers the request body. The result
    is the reply with what was printed on stderr, [None] when an exception
    escapes. *)
Definition call_ollama (curl_easy_init : bool)
    (curl_easy_perform : string -> curl_result) (prompt : string)
  : option (string * list event) :=
  if curl_easy_init then
    match curl_easy_perform (json_body prompt) with
    | CURLE_OK chunks =>
        let data := fold_left (fun response c => WriteCallback c response)
                              chunks EmptyString in
        match parse_lines EmptyString (getlines data EmptyString false) with
        | Some result => Some (result, [])
        | None => None
        end
    | CURLE_error code => Some (EmptyString, [CurlFailed code])
    end
  else Some (EmptyString, []).

(** ** The session state and the polling loop of [main] *)

(** [struct assistant_params], without the whisper parameters. *)
Record assistant_params : Type := {
  wake_word : string;
  silence_threshold_ms : Z;
  is_active : bool;
  current_segment : string;
  last_speech_time : Z
}.

(** The default member initialisers. *)
Definition initial_params : assistant_params :=
  {| wake_word := "test";
     silence_threshold_ms := 1000;
     is_active := false;
     current_segment := EmptyString;
     last_speech_time := 0 |}.

Definition set_is_active (b : bool) (p : assistant_params) :=
  {| wake_word := wake_word p;
     silence_threshold_ms := silence_threshold_ms p;
     is_active := b;
     current_segment := current_segment p;
     last_speech_time := last_speech_time p |}.

Definition set_current_segment (s : string) (p : assistant_params) :=
  {| wake_word := wake_word p;
     silence_threshold_ms := silence_threshold_ms p;
     is_active := is_active p;
     current_segment := s;
     last_speech_time := last_speech_time p |}.

Definition set_last_speech_time (t : Z) (p : assistant_params) :=
  {| wake_word := wake_word p;
     silence_threshold_ms := silence_threshold_ms p;
     is_active := is_active p;
     current_segment := current_segment p;
     last_speech_time := t |}.

(** What one pass of the loop meets outside the program: the verdict of
    [vad_simple], the reading of the system clock in milliseconds, the
    outcome of [whisper_full] ([None] for a non-zero return, else the
    segment texts in order), libcurl, and the answer of
    [sdl_poll_events]. *)
Record cycle : Type := {
  vad_simple : bool;
  clock_now : Z;
  whisper_full : option (list string);
  curl_easy_init : bool;
  curl_easy_perform : string -> curl_result;
  sdl_poll_events : bool
}.

(** A signed 64-bit value, wrapped around. *)
Definition int64_wrap (z : Z) : Z := (z + 2 ^ 63) mod 2 ^ 64 - 2 ^ 63.

(** [current_time - params.last_speech_time] *)
Definition elapsed_since_last_speech (p : assistant_params) (now : Z) : Z :=
  int64_wrap (now - last_speech_time p).

(** The [for] loop over the segments of one transcription. *)
Fixpoint segments_loop (p : assistant_params) (segments : list string)
  : assistant_params * list event :=
  match segments with
  | [] => (p, [])
  | text :: rest =>
      if negb (is_active p) then
        if contains_wake_word text (wake_word p) then
          let '(p', evs) := segments_loop (set_is_active true p) rest in
          (p', Activated :: evs)
        else segments_loop p rest
      else
        let '(p', evs) :=
          segments_loop (set_current_segment (current_segment p ++ text) p) rest in
        (p', PartialText text :: evs)
  end.

(** The condition of the [if] in the silence branch. *)
Definition should_finalize (p : assistant_params) (now : Z) : bool :=
  is_active p
  && (elapsed_since_last_speech p now >? silence_threshold_ms p)
  && negb (String.eqb (current_segment p) EmptyString).

(** One pass of the [while (is_running)] loop: the parameters after it,
    what it printed and the new value of [is_running]; [None] when an
    exception escapes. The [continue] after a failed transcription skips
    [sdl_poll_events], so [is_running] keeps its value [true]. *)
Definition loop_body (p : assistant_params) (c : cycle)
  : option (assistant_params * list event * bool) :=
  if vad_simple c then
    let p1 := set_last_speech_time (clock_now c) p in
    match whisper_full c with
    | None => Some (p1, [TranscribeFailed], true)
    | Some segments =>
        let '(p2, evs) := segments_loop p1 segments in
        Some (p2, evs, sdl_poll_events c)
    end
  else
    if should_finalize p (clock_now c) then
      match call_ollama (curl_easy_init c) (curl_easy_perform c)
                        (current_segment p) with
      | Some (response, log) =>
          Some (set_is_active false (set_current_segment EmptyString p),
                (Finalize (current_segment p) :: log ++ [Reply response; Waiting])%list,
                sdl_poll_events c)
      | None => None
      end
    else Some (p, [], sdl_poll_events c).

(** The loop over the passes scripted by [cs], left as soon as
    [is_running] is false: the parameters reached and all that was
    printed. *)
Fixpoint main_loop (p : assistant_params) (cs : list cycle)
  : option (assistant_params * list event) :=
  match cs with
  | [] => Some (p, [])
  | c :: cs' =>
      match loop_body p c with
      | None => None
      | Some (p', evs, is_running) =>
          if is_running then
            match main_loop p' cs' with
            | Some (p'', evs') => Some (p'', (evs ++ evs')%list)
            | None => None
            end
          else Some (p', evs)
      end
  end.

(** The parameters the loop can hold at its head or when it is left. *)
Definition reachable (p : assistant_params) : Prop :=
  exists cs evs, main_loop initial_params cs = Some (p, evs).

(** ** Vocabulary of the properties *)

(** The texts of [l] put one after the other. *)
Definition join (l : list string) : string :=
  fold_right append EmptyString l.

(** The segments a pass hands to the [for] loop: those of a successful
    transcription of a window with speech. *)
Definition transcript (c : cycle) : list string :=
  if vad_simple c then
    match whisper_full c with Some segments => segments | None => [] end
  else [].

(** The value of [is_running] after a pass over [c]: the answer of
    [sdl_poll_events], or [true] when the pass is cut short by the
    [continue] of a failed transcription. *)
Definition keeps_running (c : cycle) : bool :=
  if vad_simple c then
    match whisper_full c with Some _ => sdl_poll_events c | None => true end
  else sdl_poll_events c.

(** The passes of the script that the loop runs: up to the first one
    that clears [is_running]. *)
Fixpoint executed (cs : list cycle) : list cycle :=
  match cs with
  | [] => []
  | c :: cs' => c :: (if keeps_running c then executed cs' else [])
  end.

(** Reading a trace with the conversation state in hand: [Activated] is
    only allowed while Dormant ([armed = false]) and arms, [Finalize] is
    only allowed while Armed and disarms; [None] when the trace breaks
    this, else the state at its end. *)
Fixpoint activation_trace (armed : bool) (evs : list event) : option bool :=
  match evs with
  | [] => Some armed
  | Activated :: rest => if armed then None else activation_trace true rest
  | Finalize _ :: rest => if armed then activation_trace false rest else None
  | _ :: rest => activation_trace armed rest
  end.

(** The clock reading of the last pass of [cs] with a speech verdict, [t]
    when there is none. *)
Definition last_verdict_time (cs : list cycle) (t : Z) : Z :=
  fold_left (fun t c => if vad_simple c then clock_now c else t) cs t.

(** [last_speech_time] read as an optional timestamp: the field starts at
    0 and the program has no other value for a time that was never set. *)
Definition lastSpeechAt (p : assistant_params) : option Z :=
  if last_speech_time p =? 0 then None else Some (last_speech_time p).

(** No text of [l] contains the wake word. *)
Definition no_wake_word (w : string) (l : list string) : Prop :=
  forall text, In text l -> contains_wake_word text w = false.

(** The range of a C++ [int]. *)
Definition int_range (z : Z) : Prop := - 2 ^ 31 <= z < 2 ^ 31.

(** ** Sample sessions *)

Definition sample_params (active : bool) (utterance : string) (last : Z)
  : assistant_params :=
  {| wake_word := "test";
     silence_threshold_ms := 1000;
     is_active := active;
     current_segment := utterance;
     last_speech_time := last |}.

(** A completion service that cannot be reached. *)
Definition no_service : string -> curl_result := fun _ => CURLE_error 7.

Definition speech_pass (now : Z) (segments : list string) : cycle :=
  {| vad_simple := true;
     clock_now := now;
     whisper_full := Some segments;
     curl_easy_init := true;
     curl_easy_perform := no_service;
     sdl_poll_events := true |}.

Definition failed_pass (now : Z) : cycle :=
  {| vad_simple := true;
     clock_now := now;
     whisper_full := None;
     curl_easy_init := true;
     curl_easy_perform := no_service;
     sdl_poll_events := true |}.

Definition silent_pass (now : Z) : cycle :=
  {| vad_simple := false;
     clock_now := now;
     whisper_full := None;
     curl_easy_init := true;
     curl_easy_perform := no_service;
     sdl_poll_events := true |}.

(** One line of a reply of the completion service: the JSON object with
    the members [response], of value [Hi], and [done], of value false. *)
Definition hi_line : string :=
  "{" ++ response_open ++ "Hi" ++ quote_str ++ "," ++ quote_str ++ "done"
      ++ quote_str ++ ":false}".

Definition hi_body : string := hi_line ++ String newline EmptyString.

(** A line whose [response] member is written with a blank after the
    colon, which the 12-character pattern does not match. *)
Definition spaced_line : string :=
  "{" ++ quote_str ++ "a" ++ quote_str ++ ":12345678," ++ response_key
      ++ " " ++ quote_str ++ "Hi" ++ quote_str ++ "}".

(** Parameters with an empty wake word. *)
Definition empty_wake_params : assistant_params :=
  {| wake_word := EmptyString;
     silence_threshold_ms := 1000;
     is_active := false;
     current_segment := EmptyString;
     last_speech_time := 0 |}.

(** Parameters with the wake phrase of the walk-through of the
    specification. *)
Definition hey_params : assistant_params :=
  {| wake_word := "hey assistant";
     silence_threshold_ms := 1000;
     is_active := false;
     current_segment := EmptyString;
     last_speech_time := 0 |}.

(** A window without speech, met while the service answers [hi_body]. *)
Definition answered_pass (now : Z) : cycle :=
  {| vad_simple := false;
     clock_now := now;
     whisper_full := None;
     curl_easy_init := true;
     curl_easy_perform := fun _ => CURLE_OK [hi_body];
     sdl_poll_events := true |}.

(** ** Vocabulary of the properties of traces and replies *)

(** The partial text printed since the last [Finalize] of the trace,
    after the text [acc] pending before it. *)
Fixpoint pending (acc : string) (evs : list event) : string :=
  match evs with
  | [] => acc
  | PartialText text :: rest => pending (acc ++ text) rest
  | Finalize _ :: rest => pending EmptyString rest
  | _ :: rest => pending acc rest
  end.

(** Every [Finalize] of the trace carries the partial text printed since
    the one before it, [acc] being the text pending at the start. *)
Fixpoint echoes (acc : string) (evs : list event) : Prop :=
  match evs with
  | [] => True
  | PartialText text :: rest => echoes (acc ++ text) rest
  | Finalize utterance :: rest => utterance = acc /\ echoes EmptyString rest
  | _ :: rest => echoes acc rest
  end.

Definition is_Finalize (e : event) : bool :=
  match e with Finalize _ => true | _ => false end.

Definition is_Reply (e : event) : bool :=
  match e with Reply _ => true | _ => false end.

Definition is_Waiting (e : event) : bool :=
  match e with Waiting => true | _ => false end.

Definition is_CurlFailed (e : event) : bool :=
  match e with CurlFailed _ => true | _ => false end.

(** How many events of the trace satisfy [f]. *)
Definition count (f : event -> bool) (evs : list event) : nat :=
  List.length (filter f evs).

(** The lines put back one after the other, each closed by a newline. *)
Definition unlines (l : list string) : string :=
  join (map (fun line => line ++ String newline EmptyString) l).

Fixpoint has_char (c : ascii) (s : string) : bool :=
  match s with
  | EmptyString => false
  | String d s' => Ascii.eqb d c || has_char c s'
  end.

Fixpoint ends_with (c : ascii) (s : string) : bool :=
  match s with
  | EmptyString => false
  | String d EmptyString => Ascii.eqb d c
  | String _ s' => ends_with c s'
  end.

(** [s] with a newline added at its end unless it is empty or has one. *)
Definition terminated (s : string) : string :=
  if String.eqb s EmptyString || ends_with newline s then s
  else s ++ String newline EmptyString.

(** [s] closed by a newline: itself when it ends with one. *)
Definition closed (s : string) : string :=
  if ends_with newline s then s else s ++ String newline EmptyString.

(** A reply of the completion service that reports an error: the JSON
    object with the single member [error]. *)
Definition error_line : string :=
  "{" ++ quote_str ++ "error" ++ quote_str ++ ":" ++ quote_str
      ++ "model not found" ++ quote_str ++ "}".

(** ** The command line *)

(** [struct whisper_params]. A [float] is kept as the 32 bits of its
    IEEE 754 binary32 representation. *)
Record whisper_params : Type := {
  n_threads : Z;
  step_ms : Z;
  length_ms : Z;
  keep_ms : Z;
  capture_id : Z;
  max_tokens : Z;
  audio_ctx : Z;
  vad_thold : Z;
  freq_thold : Z;
  translate : bool;
  no_fallback : bool;
  print_special : bool;
  no_context : bool;
  no_timestamps : bool;
  tinydiarize : bool;
  save_audio : bool;
  use_gpu : bool;
  flash_attn : bool;
  language : string;
  model : string;
  fname_out : string
}.

(** A signed 32-bit value, wrapped around. *)
Definition int32_wrap (z : Z) : Z := (z + 2 ^ 31) mod 2 ^ 32 - 2 ^ 31.

(** The default member initialisers, [hardware_concurrency] being what
    [std::thread::hardware_concurrency()] answers; 0.6f is 0x3F19999A and
    100.0f is 0x42C80000. *)
Definition default_whisper_params (hardware_concurrency : Z)
  : whisper_params :=
  {| n_threads := Z.min 4 (int32_wrap hardware_concurrency);
     step_ms := 3000;
     length_ms := 10000;
     keep_ms := 200;
     capture_id := -1;
     max_tokens := 32;
     audio_ctx := 0;
     vad_thold := 1058642330;
     freq_thold := 1120403456;
     translate := false;
     no_fallback := false;
     print_special := false;
     no_context := true;
     no_timestamps := false;
     tinydiarize := false;
     save_audio := false;
     use_gpu := true;
     flash_attn := false;
     language := "en";
     model := "models/ggml-base.en.bin";
     fname_out := EmptyString |}.

Definition set_n_threads (v : Z) (p : whisper_params) : whisper_params :=
  {| n_threads := v; step_ms := step_ms p; length_ms := length_ms p;
     keep_ms := keep_ms p; capture_id := capture_id p;
     max_tokens := max_tokens p; audio_ctx := audio_ctx p;
     vad_thold := vad_thold p; freq_thold := freq_thold p;
     translate := translate p; no_fallback := no_fallback p;
     print_special := print_special p; no_context := no_context p;
     no_timestamps := no_timestamps p; tinydiarize := tinydiarize p;
     save_audio := save_audio p; use_gpu := use_gpu p;
     flash_attn := flash_attn p; language := language p; model := model p;
     fname_out := fname_out p |}.

Definition set_step_ms (v : Z) (p : whisper_params) : whisper_params :=
  {| n_threads := n_threads p; step_ms := v; length_ms := length_ms p;
     keep_ms := keep_ms p; capture_id := capture_id p;
     max_tokens := max_tokens p; audio_ctx := audio_ctx p;
     vad_thold := vad_thold p; freq_thold := freq_thold p;
     translate := translate p; no_fallback := no_fallback p;
     print_special := print_special p; no_context := no_context p;
     no_timestamps := no_timestamps p; tinydiarize := tinydiarize p;
     save_audio := save_audio p; use_gpu := use_gpu p;
     flash_attn := flash_attn p; language := language p; model := model p;
     fname_out := fname_out p |}.

Definition set_length_ms (v : Z) (p : whisper_params) : whisper_params :=
  {| n_threads := n_threads p; step_ms := step_ms p; length_ms := v;
     keep_ms := keep_ms p; capture_id := capture_id p;
     max_tokens := max_tokens p; audio_ctx := audio_ctx p;
     vad_thold := vad_thold p; freq_thold := freq_thold p;
     translate := translate p; no_fallback := no_fallback p;
     print_special := print_special p; no_context := no_context p;
     no_timestamps := no_timestamps p; tinydiarize := tinydiarize p;
     save_audio := save_audio p; use_gpu := use_gpu p;
     flash_attn := flash_attn p; language := language p; model := model p;
     fname_out := fname_out p |}.

Definition set_keep_ms (v : Z) (p : whisper_params) : whisper_params :=
  {| n_threads := n_threads p; step_ms := step_ms p;
     length_ms := length_ms p; keep_ms := v; capture_id := capture_id p;
     max_tokens := max_tokens p; audio_ctx := audio_ctx p;
     vad_thold := vad_thold p; freq_thold := freq_thold p;
     translate := translate p; no_fallback := no_fallback p;
     print_special := print_special p; no_context := no_context p;
     no_timestamps := no_timestamps p; tinydiarize := tinydiarize p;
     save_audio := save_audio p; use_gpu := use_gpu p;
     flash_attn := flash_attn p; language := language p; model := model p;
     fname_out := fname_out p |}.

Definition set_capture_id (v : Z) (p : whisper_params) : whisper_params :=
  {| n_threads := n_threads p; step_ms := step_ms p;
     length_ms := length_ms p; keep_ms := keep_ms p; capture_id := v;
     max_tokens := max_tokens p; audio_ctx := audio_ctx p;
     vad_thold := vad_thold p; freq_thold := freq_thold p;
     translate := translate p; no_fallback := no_fallback p;
     print_special := print_special p; no_context := no_context p;
     no_timestamps := no_timestamps p; tinydiarize := tinydiarize p;
     save_audio := save_audio p; use_gpu := use_gpu p;
     flash_attn := flash_attn p; language := language p; model := model p;
     fname_out := fname_out p |}.

Definition set_max_tokens (v : Z) (p : whisper_params) : whisper_params :=
  {| n_threads := n_threads p; step_ms := step_ms p;
     length_ms := length_ms p; keep_ms := keep_ms p;
     capture_id := capture_id p; max_tokens := v; audio_ctx := audio_ctx p;
     vad_thold := vad_thold p; freq_thold := freq_thold p;
     translate := translate p; no_fallback := no_fallback p;
     print_special := print_special p; no_context := no_context p;
     no_timestamps := no_timestamps p; tinydiarize := tinydiarize p;
     save_audio := save_audio p; use_gpu := use_gpu p;
     flash_attn := flash_attn p; language := language p; model := model p;
     fname_out := fname_out p |}.

Definition set_audio_ctx (v : Z) (p : whisper_params) : whisper_params :=
  {| n_threads := n_threads p; step_ms := step_ms p;
     length_ms := length_ms p; keep_ms := keep_ms p;
     capture_id := capture_id p; max_tokens := max_tokens p; audio_ctx := v;
     vad_thold := vad_thold p; freq_thold := freq_thold p;
     translate := translate p; no_fallback := no_fallback p;
     print_special := print_special p; no_context := no_context p;
     no_timestamps := no_timestamps p; tinydiarize := tinydiarize p;
     save_audio := save_audio p; use_gpu := use_gpu p;
     flash_attn := flash_attn p; language := language p; model := model p;
     fname_out := fname_out p |}.

Definition set_vad_thold (v : Z) (p : whisper_params) : whisper_params :=
  {| n_threads := n_threads p; step_ms := step_ms p;
     length_ms := length_ms p; keep_ms := keep_ms p;
     capture_id := capture_id p; max_tokens := max_tokens p;
     audio_ctx := audio_ctx p; vad_thold := v; freq_thold := freq_thold p;
     translate := translate p; no_fallback := no_fallback p;
     print_special := print_special p; no_context := no_context p;
     no_timestamps := no_timestamps p; tinydiarize := tinydiarize p;
     save_audio := save_audio p; use_gpu := use_gpu p;
     flash_attn := flash_attn p; language := language p; model := model p;
     fname_out := fname_out p |}.

Definition set_freq_thold (v : Z) (p : whisper_params) : whisper_params :=
  {| n_threads := n_threads p; step_ms := step_ms p;
     length_ms := length_ms p; keep_ms := keep_ms p;
     capture_id := capture_id p; max_tokens := max_tokens p;
     audio_ctx := audio_ctx p; vad_thold := vad_thold p; freq_thold := v;
     translate := translate p; no_fallback := no_fallback p;
     print_special := print_special p; no_context := no_context p;
     no_timestamps := no_timestamps p; tinydiarize := tinydiarize p;
     save_audio := save_audio p; use_gpu := use_gpu p;
     flash_attn := flash_attn p; language := language p; model := model p;
     fname_out := fname_out p |}.

Definition set_language (v : string) (p : whisper_params) : whisper_params :=
  {| n_threads := n_threads p; step_ms := step_ms p;
     length_ms := length_ms p; keep_ms := keep_ms p;
     capture_id := capture_id p; max_tokens := max_tokens p;
     audio_ctx := audio_ctx p; vad_thold := vad_thold p;
     freq_thold := freq_thold p; translate := translate p;
     no_fallback := no_fallback p; print_special := print_special p;
     no_context := no_context p; no_timestamps := no_timestamps p;
     tinydiarize := tinydiarize p; save_audio := save_audio p;
     use_gpu := use_gpu p; flash_attn := flash_attn p; language := v;
     model := model p; fname_out := fname_out p |}.

Definition set_model (v : string) (p : whisper_params) : whisper_params :=
  {| n_threads := n_threads p; step_ms := step_ms p;
     length_ms := length_ms p; keep_ms := keep_ms p;
     capture_id := capture_id p; max_tokens := max_tokens p;
     audio_ctx := audio_ctx p; vad_thold := vad_thold p;
     freq_thold := freq_thold p; translate := translate p;
     no_fallback := no_fallback p; print_special := print_special p;
     no_context := no_context p; no_timestamps := no_timestamps p;
     tinydiarize := tinydiarize p; save_audio := save_audio p;
     use_gpu := use_gpu p; flash_attn := flash_attn p;
     language := language p; model := v; fname_out := fname_out p |}.

(** What [std::stoi] and [std::stof] throw. *)
Inductive stox_error : Type := invalid_argument | out_of_range.

Inductive stox (A : Type) : Type :=
| Converted (v : A)
| Thrown (e : stox_error).

Arguments Converted {A} v.
Arguments Thrown {A} e.

(** [isspace] in the C locale. *)
Definition isspace (c : ascii) : bool :=
  let n := Z.of_nat (nat_of_ascii c) in
  (n =? 32) || ((9 <=? n) && (n <=? 13)).

(** The value of a decimal digit. *)
Definition digit (c : ascii) : option Z :=
  let n := Z.of_nat (nat_of_ascii c) in
  if (48 <=? n) && (n <=? 57) then Some (n - 48) else None.

Fixpoint skip_space (s : string) : string :=
  match s with
  | EmptyString => EmptyString
  | String c s' => if isspace c then skip_space s' else s
  end.

(** The number written by the digits at the start of [s], after those
    already read into [acc]; [None] when no digit has been read. *)
Fixpoint digits (s : string) (acc : option Z) : option Z :=
  match s with
  | EmptyString => acc
  | String c s' =>
      match digit c with
      | Some d =>
          digits s' (Some (10 * match acc with Some a => a | None => 0 end + d))
      | None => acc
      end
  end.

Definition in_int_range (z : Z) : bool := (- 2 ^ 31 <=? z) && (z <? 2 ^ 31).

(** [std::stoi(s)]: blanks are skipped, then an optional sign and the
    decimal digits are read, what follows being ignored;
    [invalid_argument] when there is no digit, [out_of_range] when the
    number does not fit an [int]. *)
Definition stoi (s : string) : stox Z :=
  let s1 := skip_space s in
  let '(negative, s2) :=
    match s1 with
    | String c rest =>
        if Ascii.eqb c "-" then (true, rest)
        else if Ascii.eqb c "+" then (false, rest)
        else (false, s1)
    | EmptyString => (false, s1)
    end in
  match digits s2 None with
  | None => Thrown invalid_argument
  | Some v =>
      let n := if negative then - v else v in
      if in_int_range n then Converted n else Thrown out_of_range
  end.

(** What is printed before the loop starts: the usage text of
    [whisper_print_usage], which shows the program name and the current
    values of the parameters, the complaint about an unknown argument, the
    complaint about the audio device and the start banner. *)
Inductive startup_output : Type :=
| UsageText (argv0 : string) (params : whisper_params)
| UnknownArgument (arg : string)
| AudioInitFailed
| SystemStarted (wake : string).

(** How [whisper_params_parse] ends: by its [return], by [exit], by an
    exception of [std::stoi] or [std::stof], or by reading [argv[argc]], a
    null pointer, as the value of the last option. *)
Inductive parse_outcome : Type :=
| ParseReturn (b : bool) (params : whisper_params)
| ParseExit (code : Z) (printed : list startup_output)
| ParseThrow (e : stox_error)
| ParseNullString.

(** The branch of the [if]/[else if] chain an argument takes. *)
Inductive option_kind : Type :=
| OptHelp
| OptInt (set : Z -> whisper_params -> whisper_params)
| OptFloat (set : Z -> whisper_params -> whisper_params)
| OptString (set : string -> whisper_params -> whisper_params)
| OptUnknown.

Definition option_of (arg : string) : option_kind :=
  if String.eqb arg "-h" || String.eqb arg "--help" then OptHelp
  else if String.eqb arg "-t" || String.eqb arg "--threads"
    then OptInt set_n_threads
  else if String.eqb arg "--step" then OptInt set_step_ms
  else if String.eqb arg "--length" then OptInt set_length_ms
  else if String.eqb arg "--keep" then OptInt set_keep_ms
  else if String.eqb arg "-c" || String.eqb arg "--capture"
    then OptInt set_capture_id
  else if String.eqb arg "-mt" || String.eqb arg "--max-tokens"
    then OptInt set_max_tokens
  else if String.eqb arg "-ac" || String.eqb arg "--audio-ctx"
    then OptInt set_audio_ctx
  else if String.eqb arg "-vth" || String.eqb arg "--vad-thold"
    then OptFloat set_vad_thold
  else if String.eqb arg "-fth" || String.eqb arg "--freq-thold"
    then OptFloat set_freq_thold
  else if String.eqb arg "-l" || String.eqb arg "--language"
    then OptString set_language
  else if String.eqb arg "-m" || String.eqb arg "--model"
    then OptString set_model
  else OptUnknown.

(** The [for] loop of [whisper_params_parse] over the arguments after
    [argv[0]]; [stof] stands for [std::stof]. *)
Fixpoint parse_args (stof : string -> stox Z) (argv0 : string)
    (args : list string) (params : whisper_params) : parse_outcome :=
  match args with
  | [] => ParseReturn true params
  | arg :: rest =>
      match option_of arg with
      | OptHelp => ParseExit 0 [UsageText argv0 params]
      | OptInt set =>
          match rest with
          | [] => ParseNullString
          | value :: rest' =>
              match stoi value with
              | Converted n => parse_args stof argv0 rest' (set n params)
              | Thrown e => ParseThrow e
              end
          end
      | OptFloat set =>
          match rest with
          | [] => ParseNullString
          | value :: rest' =>
              match stof value with
              | Converted x => parse_args stof argv0 rest' (set x params)
              | Thrown e => ParseThrow e
              end
          end
      | OptString set =>
          match rest with
          | [] => ParseNullString
          | value :: rest' => parse_args stof argv0 rest' (set value params)
          end
      | OptUnknown =>
          ParseExit 0 [UnknownArgument arg; UsageText argv0 params]
      end
  end.

(** [whisper_params_parse(argc, argv, params)] *)
Definition whisper_params_parse (stof : string -> stox Z)
    (argv : list string) (params : whisper_params) : parse_outcome :=
  match argv with
  | [] => ParseReturn true params
  | argv0 :: args => parse_args stof argv0 args params
  end.

(** Whether a pass of the script clears [is_running]. *)
Definition loop_left (cs : list cycle) : bool :=
  existsb (fun c => negb (keeps_running c)) cs.

(** How a run of the program over a script ends: the process ends with
    a status, ends abnormally (an exception nobody catches, a null pointer
    read as a string), or is still in its loop when the script is used
    up. *)
Inductive main_outcome : Type :=
| Exited (code : Z) (out : list startup_output) (evs : list event)
| Aborted
| Running (out : list startup_output) (p : assistant_params)
          (evs : list event).

(** [main]: [audio_init] is the answer of [audio.init]. *)
Definition main (hardware_concurrency : Z) (stof : string -> stox Z)
    (argv : list string) (audio_init : bool) (cs : list cycle)
  : main_outcome :=
  match whisper_params_parse stof argv
          (default_whisper_params hardware_concurrency) with
  | ParseReturn false _ => Exited 1 [] []
  | ParseReturn true _ =>
      if negb audio_init then Exited 1 [AudioInitFailed] []
      else
        match main_loop initial_params cs with
        | Some (p, evs) =>
            if loop_left cs
            then Exited 0 [SystemStarted (wake_word initial_params)] evs
            else Running [SystemStarted (wake_word initial_params)] p evs
        | None => Aborted
        end
  | ParseExit code printed => Exited code printed []
  | ParseThrow _ => Aborted
  | ParseNullString => Aborted
  end.

(** The spellings the parser knows. *)
Definition help_options : list string := ["-h"; "--help"].

Definition value_options : list string :=
  ["-t"; "--threads"; "--step"; "--length"; "--keep"; "-c"; "--capture";
   "-mt"; "--max-tokens"; "-ac"; "--audio-ctx"; "-vth"; "--vad-thold";
   "-fth"; "--freq-thold"; "-l"; "--language"; "-m"; "--model"].

(** The [int] members are in the range of an [int]. *)
Definition ints_in_range (p : whisper_params) : Prop :=
  int_range (n_threads p) /\ int_range (step_ms p) /\
  int_range (length_ms p) /\ int_range (keep_ms p) /\
  int_range (capture_id p) /\ int_range (max_tokens p) /\
  int_range (audio_ctx p).

(** The members no option sets are those of [p0]. *)
Definition same_switches (p0 p : whisper_params) : Prop :=
  translate p = translate p0 /\ no_fallback p = no_fallback p0 /\
  print_special p = print_special p0 /\ no_context p = no_context p0 /\
  no_timestamps p = no_timestamps p0 /\ tinydiarize p = tinydiarize p0 /\
  save_audio p = save_audio p0 /\ use_gpu p = use_gpu p0 /\
  flash_attn p = flash_attn p0 /\ fname_out p = fname_out p0.

(** What a branch of the chain must do for [Inv] to survive it. *)
Definition kind_preserves (Inv : whisper_params -> Prop) (k : option_kind)
  : Prop :=
  match k with
  | OptInt set => forall n p, int_range n -> Inv p -> Inv (set n p)
  | OptFloat set => forall x p, Inv p -> Inv (set x p)
  | OptString set => forall v p, Inv p -> Inv (set v p)
  | OptHelp | OptUnknown => True
  end.

(** A [std::stof] that reads nothing. *)
Definition no_stof : string -> stox Z := fun _ => Thrown invalid_argument.

(** The spellings of the options whose value is read by [std::stoi]. *)
Definition int_options : list string :=
  ["-t"; "--threads"; "--step"; "--length"; "--keep"; "-c"; "--capture";
   "-mt"; "--max-tokens"; "-ac"; "--audio-ctx"].

(** * Properties *)

Example contains_wake_word_mid :
  contains_wake_word "run the test now" "test" = true.
Proof. reflexivity. Qed.

Example contains_wake_word_case :
  contains_wake_word "run the Test now" "test" = false.
Proof. reflexivity. Qed.

Example response_key_length : size response_key = 11.
Proof. reflexivity. Qed.

Example response_open_length : size response_open = 12.
Proof. reflexivity. Qed.

(** ** Facts about the std::string primitives *)

Section StdStringFacts.

Lemma size_nonneg (s : string) : 0 <= size s.
Proof. unfold size. lia. Qed.

Lemma size_cons (c : ascii) (s : string) : size (String c s) = 1 + size s.
Proof. unfold size. cbn [String.length]. lia. Qed.

Lemma size_nil : size "" = 0.
Proof. reflexivity. Qed.

Lemma size_append (a b : string) : size (a ++ b) = size a + size b.
Proof.
  induction a as [|c a IH]; cbn [append].
  - rewrite size_nil. lia.
  - rewrite !size_cons. lia.
Qed.

Lemma append_nil_r (s : string) : s ++ "" = s.
Proof. induction s as [|c s IH]; simpl; congruence. Qed.

Lemma append_assoc (a b c : string) : (a ++ b) ++ c = a ++ b ++ c.
Proof. induction a as [|x a IH]; simpl; congruence. Qed.

Lemma prefix_nil (s : string) : String.prefix "" s = true.
Proof. destruct s; reflexivity. Qed.

Lemma prefix_iff (pat s : string) :
  String.prefix pat s = true <-> exists post, s = pat ++ post.
Proof.
  revert s. induction pat as [|a pat IH]; intros s.
  - rewrite prefix_nil. split; [exists s; reflexivity | reflexivity].
  - destruct s as [|b s]; simpl.
    + split; [discriminate | intros [post H]; discriminate].
    + destruct (ascii_dec a b) as [->|Hab].
      * rewrite IH. split; intros [post H]; exists post; congruence.
      * split; [discriminate | intros [post H]; congruence].
Qed.

(** [find_here] answers [npos] or an index between [i] and the end. *)
Lemma find_here_range (s pat : string) (i : Z) :
  find_here s pat i = npos \/ i <= find_here s pat i <= i + size s.
Proof.
  revert i. induction s as [|c s IH]; intros i; cbn [find_here].
  - destruct (String.prefix pat ""); [right; rewrite size_nil; lia | now left].
  - destruct (String.prefix pat (String c s)).
    + right. pose proof (size_nonneg (String c s)). lia.
    + destruct (IH (i + 1)) as [H|H]; [now left|right].
      rewrite size_cons. lia.
Qed.

(** An index answered by [find_here] is one where [pat] starts. *)
Lemma find_here_sound (s pat : string) (i : Z) :
  find_here s pat i = npos \/
  exists pre post, s = pre ++ pat ++ post /\ find_here s pat i = i + size pre.
Proof.
  revert i. induction s as [|c s IH]; intros i; cbn [find_here].
  - destruct (String.prefix pat "") eqn:E; [right | now left].
    apply prefix_iff in E. destruct E as [post E].
    exists "", post. split; [exact E | rewrite size_nil; lia].
  - destruct (String.prefix pat (String c s)) eqn:E.
    + right. apply prefix_iff in E. destruct E as [post E].
      exists "", post. split; [exact E | rewrite size_nil; lia].
    + destruct (IH (i + 1)) as [H|(pre & post & Hs & Hr)]; [now left|right].
      exists (String c pre), post. split; [simpl; congruence|].
      rewrite Hr, size_cons. lia.
Qed.

(** Where [pat] occurs, [find_here] answers an index not past the
    occurrence. *)
Lemma find_here_complete (pre pat post : string) (i : Z) :
  i <= find_here (pre ++ pat ++ post) pat i <= i + size pre.
Proof.
  revert i. induction pre as [|c pre IH]; intros i.
  - simpl append. assert (E : String.prefix pat (pat ++ post) = true)
      by (apply prefix_iff; now exists post).
    rewrite size_nil.
    destruct (pat ++ post); cbn [find_here]; rewrite E; lia.
  - cbn [append find_here].
    destruct (String.prefix pat (String c (pre ++ pat ++ post))).
    + pose proof (size_nonneg (String c pre)). lia.
    + specialize (IH (i + 1)). rewrite size_cons. lia.
Qed.

Lemma find_from_start (s pat : string) : find s pat 0 = find_here s pat 0.
Proof.
  unfold find. pose proof (size_nonneg s).
  destruct (size s <? 0) eqn:E; [apply Z.ltb_lt in E; lia | reflexivity].
Qed.

(** A search that answers an index started inside the string. *)
Lemma find_answer_in_string (s pat : string) (pos : Z) :
  find s pat pos <> npos -> (size s <? pos) = false.
Proof. unfold find. destruct (size s <? pos); congruence. Qed.

End StdStringFacts.

(** ** The wake-word matcher *)

(** C4. For every segment text S (a std::string, so shorter than npos) and
    wake phrase W, [contains_wake_word S W] is true if and only if W occurs
    in S as a block of consecutive characters, compared character by
    character; the matcher is a function of its two arguments alone. *)
Theorem contains_wake_word_iff_substring (S W : string)
    (Hfits : size S < npos) :
  contains_wake_word S W = true <-> contiguous_substring W S.
Proof.
  unfold contains_wake_word, contiguous_substring.
  rewrite find_from_start, negb_true_iff, Z.eqb_neq. split.
  - intros Hfound. destruct (find_here_sound S W 0) as [H|(pre & post & H & _)].
    + contradiction.
    + now exists pre, post.
  - intros (pre & post & ->). pose proof (find_here_complete pre W post 0) as Hr.
    rewrite !size_append in Hfits.
    pose proof (size_nonneg W). pose proof (size_nonneg post). lia.
Qed.

Lemma contains_wake_word_iff_substring_witness :
  size "run the test now" < npos /\
  (contains_wake_word "run the test now" "test" = true <->
   contiguous_substring "test" "run the test now").
Proof.
  split; [reflexivity|].
  apply (contains_wake_word_iff_substring "run the test now" "test").
  reflexivity.
Defined.

Lemma contains_empty_wake_word (S : string) : contains_wake_word S "" = true.
Proof.
  unfold contains_wake_word. rewrite find_from_start.
  destruct S; reflexivity.
Qed.

(** ** No pass of the loop is aborted by an exception *)

Lemma parse_line_returns (result line : string) :
  exists result', parse_line result line = Some result'.
Proof.
  unfold parse_line.
  destruct (negb (find line response_key 0 =? npos)); [|eauto].
  set (start := size_t_wrap (find line response_open 0 + 11)).
  destruct (negb (start =? npos)); cbn [andb]; [|eauto].
  destruct (negb (find line quote_str start =? npos)) eqn:E; [|eauto].
  apply negb_true_iff, Z.eqb_neq, find_answer_in_string in E.
  unfold substr. rewrite E. eauto.
Qed.

Lemma parse_lines_returns (lines : list string) (result : string) :
  exists result', parse_lines result lines = Some result'.
Proof.
  revert result. induction lines as [|line rest IH]; intros result.
  - simpl. eauto.
  - cbn [parse_lines].
    destruct (parse_line_returns result line) as [r ->]. apply IH.
Qed.

Lemma call_ollama_returns (init : bool) (perform : string -> curl_result)
    (prompt : string) :
  exists reply log, call_ollama init perform prompt = Some (reply, log).
Proof.
  unfold call_ollama. destruct init; [|eauto].
  destruct (perform (json_body prompt)) as [chunks|code]; [|eauto].
  match goal with |- context [parse_lines ?r ?l] =>
    destruct (parse_lines_returns l r) as [res ->] end.
  eauto.
Qed.

(** The reply is empty when no handle is obtained or the transfer fails. *)
Lemma call_ollama_failure (init : bool) (perform : string -> curl_result)
    (prompt : string) :
  init = false \/ (exists code, perform (json_body prompt) = CURLE_error code) ->
  exists log, call_ollama init perform prompt = Some ("", log).
Proof.
  unfold call_ollama. intros [->|[code H]]; [eauto|].
  destruct init; [rewrite H|]; eauto.
Qed.

(** ** The [for] loop over the segments *)

Lemma set_current_segment_same (p : assistant_params) :
  set_current_segment (current_segment p) p = p.
Proof. destruct p; reflexivity. Qed.

Lemma join_cons (text : string) (l : list string) :
  join (text :: l) = text ++ join l.
Proof. reflexivity. Qed.

Lemma join_app (l1 l2 : list string) :
  join (l1 ++ l2)%list = join l1 ++ join l2.
Proof.
  induction l1 as [|a l1 IH]; [reflexivity|].
  cbn [app]. rewrite !join_cons, IH, append_assoc. reflexivity.
Qed.

(** While active, every segment is appended and printed, whatever it
    contains. *)
Lemma segments_loop_active (segments : list string) (p : assistant_params) :
  is_active p = true ->
  segments_loop p segments =
    (set_current_segment (current_segment p ++ join segments) p,
     map PartialText segments).
Proof.
  revert p. induction segments as [|text rest IH]; intros p Ha.
  - cbn [segments_loop join fold_right map].
    rewrite append_nil_r, set_current_segment_same. reflexivity.
  - cbn [segments_loop]. rewrite Ha. cbn [negb].
    rewrite IH by exact Ha. cbn [map]. rewrite join_cons, <- append_assoc.
    reflexivity.
Qed.

(** While inactive, segments without the wake word leave no trace. *)
Lemma segments_loop_no_wake_word (segments : list string)
    (p : assistant_params) :
  is_active p = false -> no_wake_word (wake_word p) segments ->
  segments_loop p segments = (p, []).
Proof.
  intros Hd. induction segments as [|text rest IH]; intros Hno.
  - reflexivity.
  - cbn [segments_loop]. rewrite Hd. cbn [negb].
    rewrite (Hno text) by (left; reflexivity).
    apply IH. intros t Ht. apply Hno. right. exact Ht.
Qed.

(** While inactive, the first segment with the wake word activates and is
    itself dropped; the segments after it are appended. *)
Lemma segments_loop_wake_word (pre post : list string) (s : string)
    (p : assistant_params) :
  is_active p = false -> no_wake_word (wake_word p) pre ->
  contains_wake_word s (wake_word p) = true ->
  segments_loop p (pre ++ s :: post)%list =
    (set_current_segment (current_segment p ++ join post) (set_is_active true p),
     Activated :: map PartialText post).
Proof.
  intros Hd. induction pre as [|text rest IH]; intros Hno Hs.
  - cbn [app segments_loop]. rewrite Hd, Hs. cbn [negb].
    rewrite segments_loop_active by reflexivity. reflexivity.
  - cbn [app segments_loop]. rewrite Hd. cbn [negb].
    rewrite (Hno text) by (left; reflexivity).
    apply IH; [|exact Hs]. intros t Ht. apply Hno. right. exact Ht.
Qed.

(** Every list of segments either holds no wake word or splits at the
    first segment that does. *)
Lemma first_wake_word (w : string) (segments : list string) :
  no_wake_word w segments \/
  exists pre s post, segments = (pre ++ s :: post)%list /\
    no_wake_word w pre /\ contains_wake_word s w = true.
Proof.
  induction segments as [|text rest IH].
  - left. intros t [].
  - destruct (contains_wake_word text w) eqn:E.
    + right. exists [], text, rest. repeat split; [intros t []|exact E].
    + destruct IH as [Hno|(pre & s & post & -> & Hno & Hs)].
      * left. intros t [<-|Ht]; [exact E|now apply Hno].
      * right. exists (text :: pre), s, post. repeat split; [|exact Hs].
        intros t [<-|Ht]; [exact E|now apply Hno].
Qed.

(** ** One pass of the loop *)

Lemma loop_body_returns (p : assistant_params) (c : cycle) :
  exists p' evs r, loop_body p c = Some (p', evs, r).
Proof.
  unfold loop_body. destruct (vad_simple c).
  - destruct (whisper_full c) as [segments|]; [|eauto].
    destruct (segments_loop _ segments) as [p2 evs]. eauto.
  - destruct (should_finalize p (clock_now c)); [|eauto].
    destruct (call_ollama_returns (curl_easy_init c) (curl_easy_perform c)
                (current_segment p)) as (reply & log & ->).
    eauto.
Qed.

Lemma should_finalize_iff (p : assistant_params) (now : Z) :
  should_finalize p now = true <->
  is_active p = true /\ current_segment p <> "" /\
  elapsed_since_last_speech p now > silence_threshold_ms p.
Proof.
  unfold should_finalize.
  rewrite !andb_true_iff, negb_true_iff, String.eqb_neq, Z.gtb_gt.
  tauto.
Qed.

(** A pass over a window without speech that does not finalize. *)
Lemma loop_body_silence_idle (p : assistant_params) (c : cycle) :
  vad_simple c = false -> should_finalize p (clock_now c) = false ->
  loop_body p c = Some (p, [], sdl_poll_events c).
Proof. intros Hv Hf. unfold loop_body. rewrite Hv, Hf. reflexivity. Qed.

(** A pass over a window without speech that finalizes. *)
Lemma loop_body_silence_finalize (p : assistant_params) (c : cycle) :
  vad_simple c = false -> should_finalize p (clock_now c) = true ->
  exists reply log,
    call_ollama (curl_easy_init c) (curl_easy_perform c) (current_segment p)
      = Some (reply, log) /\
    loop_body p c =
      Some (set_is_active false (set_current_segment "" p),
            (Finalize (current_segment p) :: log ++ [Reply reply; Waiting])%list,
            sdl_poll_events c).
Proof.
  intros Hv Hf. unfold loop_body. rewrite Hv, Hf.
  destruct (call_ollama_returns (curl_easy_init c) (curl_easy_perform c)
              (current_segment p)) as (reply & log & E).
  rewrite E. eauto.
Qed.

(** A pass over a window with speech whose transcription fails. *)
Lemma loop_body_transcription_failed (p : assistant_params) (c : cycle) :
  vad_simple c = true -> whisper_full c = None ->
  loop_body p c =
    Some (set_last_speech_time (clock_now c) p, [TranscribeFailed], true).
Proof. intros Hv Hw. unfold loop_body. rewrite Hv, Hw. reflexivity. Qed.

(** A pass over a window with speech that is transcribed. *)
Lemma loop_body_speech (p : assistant_params) (c : cycle)
    (segments : list string) :
  vad_simple c = true -> whisper_full c = Some segments ->
  loop_body p c =
    Some (fst (segments_loop (set_last_speech_time (clock_now c) p) segments),
          snd (segments_loop (set_last_speech_time (clock_now c) p) segments),
          sdl_poll_events c).
Proof.
  intros Hv Hw. unfold loop_body. rewrite Hv, Hw.
  destruct (segments_loop _ segments). reflexivity.
Qed.

(** The log of [call_ollama] holds no [Finalize] and no [Activated]. *)
Lemma call_ollama_log (init : bool) (perform : string -> curl_result)
    (prompt reply : string) (log : list event) :
  call_ollama init perform prompt = Some (reply, log) ->
  log = [] \/ exists code, log = [CurlFailed code].
Proof.
  unfold call_ollama. destruct init; [|intros [= _ <-]; now left].
  destruct (perform (json_body prompt)) as [chunks|code].
  - destruct (parse_lines _ _); [intros [= _ <-]; now left|discriminate].
  - intros [= _ <-]. right. eauto.
Qed.

Lemma segments_loop_events (segments : list string) (p : assistant_params)
    (e : event) :
  In e (snd (segments_loop p segments)) ->
  e = Activated \/ exists text, In text segments /\ e = PartialText text.
Proof.
  revert p. induction segments as [|text rest IH]; intros p; cbn [segments_loop].
  - intros [].
  - destruct (negb (is_active p)).
    + destruct (contains_wake_word text (wake_word p)).
      * destruct (segments_loop (set_is_active true p) rest) as [p' evs] eqn:E.
        cbn [snd]. intros [<-|He]; [now left|].
        specialize (IH (set_is_active true p)). rewrite E in IH.
        destruct (IH He) as [->|(t & Ht & ->)]; [now left|right].
        exists t. split; [now right|reflexivity].
      * intros He. destruct (IH p He) as [->|(t & Ht & ->)]; [now left|right].
        exists t. split; [now right|reflexivity].
    + destruct (segments_loop (set_current_segment _ p) rest) as [p' evs] eqn:E.
      cbn [snd]. intros [<-|He].
      * right. exists text. split; [now left|reflexivity].
      * specialize (IH (set_current_segment (current_segment p ++ text) p)).
        rewrite E in IH.
        destruct (IH He) as [->|(t & Ht & ->)]; [now left|right].
        exists t. split; [now right|reflexivity].
Qed.

(** The [Finalize] events of a pass. *)
Lemma loop_body_Finalize (p p' : assistant_params) (c : cycle)
    (evs : list event) (r : bool) (u : string) :
  loop_body p c = Some (p', evs, r) ->
  In (Finalize u) evs <->
  vad_simple c = false /\ should_finalize p (clock_now c) = true /\
  u = current_segment p.
Proof.
  intros Hb. destruct (vad_simple c) eqn:Hv.
  - split; [|intros (H & _); discriminate]. intros Hin. exfalso.
    destruct (whisper_full c) as [segments|] eqn:Hw.
    + rewrite (loop_body_speech p c segments Hv Hw) in Hb.
      injection Hb as _ <- _.
      apply segments_loop_events in Hin.
      destruct Hin as [H|(t & _ & H)]; discriminate.
    + rewrite (loop_body_transcription_failed p c Hv Hw) in Hb.
      injection Hb as _ <- _. destruct Hin as [H|[]]. discriminate.
  - destruct (should_finalize p (clock_now c)) eqn:Hf.
    + destruct (loop_body_silence_finalize p c Hv Hf) as (reply & log & Hc & E).
      rewrite E in Hb. injection Hb as _ <- _.
      split.
      * intros [[= <-]|Hin]; [auto|]. exfalso.
        apply in_app_or in Hin.
        destruct Hin as [Hin|[H|[H|[]]]]; try discriminate.
        destruct (call_ollama_log _ _ _ _ _ Hc) as [->|[code ->]].
        -- destruct Hin.
        -- destruct Hin as [H|[]]. discriminate.
      * intros (_ & _ & ->). now left.
    + rewrite (loop_body_silence_idle p c Hv Hf) in Hb.
      injection Hb as _ <- _. split; [intros []|intros (_ & H & _); discriminate].
Qed.

(** The parameters after a pass that finalizes. *)
Lemma loop_body_after_Finalize (p p' : assistant_params) (c : cycle)
    (evs : list event) (r : bool) (u : string) :
  loop_body p c = Some (p', evs, r) -> In (Finalize u) evs ->
  p' = set_is_active false (set_current_segment "" p).
Proof.
  intros Hb Hin. pose proof (proj1 (loop_body_Finalize _ _ _ _ _ _ Hb) Hin)
    as (Hv & Hf & _).
  destruct (loop_body_silence_finalize p c Hv Hf) as (reply & log & _ & E).
  congruence.
Qed.

Lemma int64_wrap_small (z : Z) :
  - 2 ^ 63 <= z < 2 ^ 63 -> int64_wrap z = z.
Proof. intros H. unfold int64_wrap. rewrite Z.mod_small; lia. Qed.

(** ** Finalizing *)

(** C1. A pass prints [Finalize] if and only if the window holds no
    speech, the assistant is active, the utterance is non-empty and the
    time since the last speech is strictly greater than the silence
    threshold; the event carries the utterance, which is then cleared while
    the assistant goes back to inactive. With the last speech at T, a
    silent pass at T + threshold + 1 finalizes and one at T + threshold - 1
    does not; with an empty utterance no pass finalizes. *)
Theorem finalize_iff_long_silence (p : assistant_params) (c : cycle) :
  exists p' evs r,
    loop_body p c = Some (p', evs, r) /\
    ((exists u, In (Finalize u) evs) <->
     vad_simple c = false /\ is_active p = true /\ current_segment p <> "" /\
     elapsed_since_last_speech p (clock_now c) > silence_threshold_ms p) /\
    (forall u, In (Finalize u) evs ->
       u = current_segment p /\ current_segment p' = "" /\
       is_active p' = false) /\
    (int_range (silence_threshold_ms p) -> vad_simple c = false ->
     is_active p = true -> current_segment p <> "" ->
       (clock_now c = last_speech_time p + silence_threshold_ms p + 1 ->
        In (Finalize (current_segment p)) evs) /\
       (clock_now c = last_speech_time p + silence_threshold_ms p - 1 ->
        forall u, ~ In (Finalize u) evs)) /\
    (current_segment p = "" -> forall u, ~ In (Finalize u) evs).
Proof.
  destruct (loop_body_returns p c) as (p' & evs & r & Hb).
  exists p', evs, r. split; [exact Hb|].
  pose proof (fun u => loop_body_Finalize p p' c evs r u Hb) as HF.
  assert (Hcond : forall u, In (Finalize u) evs ->
            vad_simple c = false /\ is_active p = true /\
            current_segment p <> "" /\
            elapsed_since_last_speech p (clock_now c) > silence_threshold_ms p).
  { intros u Hu. apply HF in Hu. destruct Hu as (Hv & Hf & _).
    apply should_finalize_iff in Hf. tauto. }
  split; [|split; [|split]].
  - split.
    + intros [u Hu]. exact (Hcond u Hu).
    + intros (Hv & Ha & Hne & He). exists (current_segment p). apply HF.
      split; [exact Hv|split; [|reflexivity]].
      apply should_finalize_iff. tauto.
  - intros u Hu. split; [apply HF in Hu; tauto|].
    rewrite (loop_body_after_Finalize _ _ _ _ _ _ Hb Hu). split; reflexivity.
  - intros Hthr Hv Ha Hne. unfold int_range in Hthr. split.
    + intros Hnow. apply HF. split; [exact Hv|split; [|reflexivity]].
      apply should_finalize_iff. split; [exact Ha|split; [exact Hne|]].
      unfold elapsed_since_last_speech. rewrite int64_wrap_small; lia.
    + intros Hnow u Hu. destruct (Hcond u Hu) as (_ & _ & _ & He).
      unfold elapsed_since_last_speech in He.
      rewrite int64_wrap_small in He; lia.
  - intros Hempty u Hu. destruct (Hcond u Hu) as (_ & _ & Hne & _).
    contradiction.
Qed.

(** ** Activation *)

Lemma segments_loop_stays_inactive (segments : list string)
    (p : assistant_params) :
  is_active p = false ->
  is_active (fst (segments_loop p segments)) = true ->
  In Activated (snd (segments_loop p segments)) /\
  exists s, In s segments /\ contains_wake_word s (wake_word p) = true.
Proof.
  intros Hd Ha.
  destruct (first_wake_word (wake_word p) segments)
    as [Hno|(pre & s & post & -> & Hno & Hs)].
  - rewrite (segments_loop_no_wake_word segments p Hd Hno) in Ha.
    cbn [fst] in Ha. congruence.
  - rewrite (segments_loop_wake_word pre post s p Hd Hno Hs). cbn [snd].
    split; [now left|]. exists s. split; [|exact Hs].
    apply in_or_app. right. now left.
Qed.

(** A pass that starts inactive and hears the wake word. *)
Lemma loop_body_wake_word (p : assistant_params) (c : cycle)
    (pre post : list string) (s : string) :
  is_active p = false ->
  vad_simple c = true -> whisper_full c = Some (pre ++ s :: post)%list ->
  no_wake_word (wake_word p) pre ->
  contains_wake_word s (wake_word p) = true ->
  loop_body p c =
    Some (set_current_segment (current_segment p ++ join post)
            (set_is_active true (set_last_speech_time (clock_now c) p)),
          Activated :: map PartialText post,
          sdl_poll_events c).
Proof.
  intros Hd Hv Hw Hno Hs.
  rewrite (loop_body_speech p c _ Hv Hw).
  rewrite (segments_loop_wake_word pre post s
             (set_last_speech_time (clock_now c) p) Hd Hno Hs).
  reflexivity.
Qed.

(** C2. A pass that starts inactive: when the window holds speech and a
    segment contains the wake word, it prints [Activated], drops the text
    of that (first matching) segment and ends active; when the window holds
    speech and no segment matches, or holds no speech, it ends inactive
    with nothing printed and the utterance untouched; and it ends active
    only when a segment of a window with speech contains the wake word. *)
Theorem dormant_pass (p : assistant_params) (c : cycle)
    (Hd : is_active p = false) :
  (forall pre s post,
     vad_simple c = true -> whisper_full c = Some (pre ++ s :: post)%list ->
     no_wake_word (wake_word p) pre ->
     contains_wake_word s (wake_word p) = true ->
     loop_body p c =
       Some (set_current_segment (current_segment p ++ join post)
               (set_is_active true (set_last_speech_time (clock_now c) p)),
             Activated :: map PartialText post,
             sdl_poll_events c)) /\
  (forall segments,
     vad_simple c = true -> whisper_full c = Some segments ->
     no_wake_word (wake_word p) segments ->
     loop_body p c =
       Some (set_last_speech_time (clock_now c) p, [], sdl_poll_events c)) /\
  (vad_simple c = false -> loop_body p c = Some (p, [], sdl_poll_events c)) /\
  (forall p' evs r,
     loop_body p c = Some (p', evs, r) -> is_active p' = true ->
     In Activated evs /\ vad_simple c = true /\
     exists segments s, whisper_full c = Some segments /\ In s segments /\
       contains_wake_word s (wake_word p) = true).
Proof.
  split; [|split; [|split]].
  - intros pre s post. apply loop_body_wake_word. exact Hd.
  - intros segments Hv Hw Hno.
    rewrite (loop_body_speech p c _ Hv Hw).
    rewrite (segments_loop_no_wake_word segments
               (set_last_speech_time (clock_now c) p) Hd Hno).
    reflexivity.
  - intros Hv. apply loop_body_silence_idle; [exact Hv|].
    unfold should_finalize. rewrite Hd. reflexivity.
  - intros p' evs r Hb Ha. destruct (vad_simple c) eqn:Hv.
    + destruct (whisper_full c) as [segments|] eqn:Hw.
      * rewrite (loop_body_speech p c _ Hv Hw) in Hb.
        injection Hb as <- <- _.
        destruct (segments_loop_stays_inactive segments
                    (set_last_speech_time (clock_now c) p) Hd Ha)
          as (Hin & s & Hs & Hm).
        split; [exact Hin|split; [reflexivity|]]. now exists segments, s.
      * rewrite (loop_body_transcription_failed p c Hv Hw) in Hb.
        injection Hb as <- _ _. cbn in Ha. congruence.
    + rewrite loop_body_silence_idle in Hb; [|exact Hv|].
      * injection Hb as <- _ _. congruence.
      * unfold should_finalize. rewrite Hd. reflexivity.
Qed.

(** C10. With an empty wake word every text matches, so a pass that
    starts inactive over a window with speech transcribed into at least
    one segment activates on the first segment. *)
Theorem empty_wake_word_activates (p : assistant_params) (c : cycle)
    (text : string) (rest : list string)
    (Hw : wake_word p = "") (Hd : is_active p = false)
    (Hv : vad_simple c = true) (Hs : whisper_full c = Some (text :: rest)) :
  (forall S, contains_wake_word S (wake_word p) = true) /\
  exists p',
    loop_body p c =
      Some (p', Activated :: map PartialText rest, sdl_poll_events c) /\
    is_active p' = true.
Proof.
  split; [intros S; rewrite Hw; apply contains_empty_wake_word|].
  eexists. split.
  - apply (loop_body_wake_word p c [] rest text Hd Hv Hs); [intros t []|].
    rewrite Hw. apply contains_empty_wake_word.
  - reflexivity.
Qed.

(** ** Runs of the loop *)

Lemma loop_body_keeps_running (p p' : assistant_params) (c : cycle)
    (evs : list event) (r : bool) :
  loop_body p c = Some (p', evs, r) -> r = keeps_running c.
Proof.
  unfold loop_body, keeps_running. destruct (vad_simple c).
  - destruct (whisper_full c) as [segments|]; [|congruence].
    destruct (segments_loop _ segments). congruence.
  - destruct (should_finalize p (clock_now c)); [|congruence].
    destruct (call_ollama _ _ _) as [[reply log]|]; congruence.
Qed.

(** A run is a first pass followed, when the loop goes on, by the run of
    the rest. *)
Lemma main_loop_inv (p pN : assistant_params) (c : cycle) (cs : list cycle)
    (evs : list event) :
  main_loop p (c :: cs) = Some (pN, evs) ->
  exists p1 evs1,
    loop_body p c = Some (p1, evs1, keeps_running c) /\
    ((keeps_running c = false /\ pN = p1 /\ evs = evs1) \/
     (keeps_running c = true /\
      exists evs2, main_loop p1 cs = Some (pN, evs2) /\
                   evs = (evs1 ++ evs2)%list)).
Proof.
  cbn [main_loop]. destruct (loop_body p c) as [[[p1 evs1] r]|] eqn:Hb;
    [|discriminate].
  pose proof (loop_body_keeps_running _ _ _ _ _ Hb) as ->. intros H.
  exists p1, evs1. split; [reflexivity|].
  destruct (keeps_running c).
  - right. split; [reflexivity|].
    destruct (main_loop p1 cs) as [[p2 evs2]|]; [|discriminate].
    injection H as <- <-. eauto.
  - left. injection H as <- <-. auto.
Qed.

Lemma main_loop_returns (cs : list cycle) (p : assistant_params) :
  exists p' evs, main_loop p cs = Some (p', evs).
Proof.
  revert p. induction cs as [|c cs IH]; intros p; cbn [main_loop]; [eauto|].
  destruct (loop_body_returns p c) as (p1 & evs1 & r & ->).
  destruct r; [|eauto]. destruct (IH p1) as (p2 & evs2 & ->). eauto.
Qed.

(** What every pass preserves holds all along a run. *)
Lemma main_loop_preserves (P : assistant_params -> Prop) :
  (forall p c p' evs r, P p -> loop_body p c = Some (p', evs, r) -> P p') ->
  forall cs p p' evs, P p -> main_loop p cs = Some (p', evs) -> P p'.
Proof.
  intros Hstep. induction cs as [|c cs IH]; intros p p' evs Hp Hrun.
  - injection Hrun as <- _. exact Hp.
  - apply main_loop_inv in Hrun.
    destruct Hrun as (p1 & evs1 & Hb & [(_ & -> & _)|(_ & evs2 & Hr & _)]).
    + exact (Hstep _ _ _ _ _ Hp Hb).
    + exact (IH _ _ _ (Hstep _ _ _ _ _ Hp Hb) Hr).
Qed.

(** ** No second activation *)

Lemma activation_trace_app (e1 e2 : list event) (a b : bool) :
  activation_trace a e1 = Some b ->
  activation_trace a (e1 ++ e2)%list = activation_trace b e2.
Proof.
  revert a. induction e1 as [|e e1 IH]; intros a; cbn [app activation_trace].
  - intros [= ->]. reflexivity.
  - destruct e; try apply IH; destruct a; try discriminate; apply IH.
Qed.

Lemma activation_trace_PartialText (segments : list string) (a : bool) :
  activation_trace a (map PartialText segments) = Some a.
Proof. induction segments as [|t l IH]; [reflexivity|exact IH]. Qed.

Lemma segments_loop_trace (segments : list string) (p : assistant_params) :
  activation_trace (is_active p) (snd (segments_loop p segments)) =
  Some (is_active (fst (segments_loop p segments))).
Proof.
  destruct (is_active p) eqn:Ha.
  - rewrite (segments_loop_active segments p Ha). cbn [fst snd].
    rewrite activation_trace_PartialText. cbn. congruence.
  - destruct (first_wake_word (wake_word p) segments)
      as [Hno|(pre & s & post & -> & Hno & Hs)].
    + rewrite (segments_loop_no_wake_word segments p Ha Hno). cbn. congruence.
    + rewrite (segments_loop_wake_word pre post s p Ha Hno Hs).
      cbn [fst snd activation_trace].
      rewrite activation_trace_PartialText. reflexivity.
Qed.

Lemma loop_body_trace (p p' : assistant_params) (c : cycle)
    (evs : list event) (r : bool) :
  loop_body p c = Some (p', evs, r) ->
  activation_trace (is_active p) evs = Some (is_active p').
Proof.
  intros Hb. destruct (vad_simple c) eqn:Hv.
  - destruct (whisper_full c) as [segments|] eqn:Hw.
    + rewrite (loop_body_speech p c segments Hv Hw) in Hb.
      injection Hb as <- <- _.
      exact (segments_loop_trace segments (set_last_speech_time (clock_now c) p)).
    + rewrite (loop_body_transcription_failed p c Hv Hw) in Hb.
      injection Hb as <- <- _. reflexivity.
  - destruct (should_finalize p (clock_now c)) eqn:Hf.
    + destruct (loop_body_silence_finalize p c Hv Hf) as (reply & log & Hc & E).
      rewrite E in Hb. injection Hb as <- <- _.
      apply should_finalize_iff in Hf. destruct Hf as (Ha & _).
      rewrite Ha. cbn [activation_trace].
      destruct (call_ollama_log _ _ _ _ _ Hc) as [->|[code ->]]; reflexivity.
    + rewrite (loop_body_silence_idle p c Hv Hf) in Hb.
      injection Hb as <- <- _. reflexivity.
Qed.

Lemma main_loop_trace (cs : list cycle) (p p' : assistant_params)
    (evs : list event) :
  main_loop p cs = Some (p', evs) ->
  activation_trace (is_active p) evs = Some (is_active p').
Proof.
  revert p evs. induction cs as [|c cs IH]; intros p evs Hrun.
  - injection Hrun as <- <-. reflexivity.
  - apply main_loop_inv in Hrun.
    destruct Hrun as (p1 & evs1 & Hb &
                      [(_ & -> & ->)|(_ & evs2 & Hr & ->)]).
    + exact (loop_body_trace _ _ _ _ _ Hb).
    + rewrite (activation_trace_app _ _ _ _ (loop_body_trace _ _ _ _ _ Hb)).
      exact (IH _ _ Hr).
Qed.

Lemma activation_trace_armed_no_Activated (evs : list event) (b : bool) :
  activation_trace true evs = Some b ->
  In Activated evs -> exists u, In (Finalize u) evs.
Proof.
  induction evs as [|e evs IH]; [intros _ []|].
  destruct e; cbn [activation_trace]; try discriminate;
    try (intros Ht [H|Hin]; [discriminate|];
         destruct (IH Ht Hin) as [u Hu]; exists u; now right).
  intros _ _. exists utterance. now left.
Qed.

(** C3. A pass that starts active over a transcribed window with speech
    appends every segment to the utterance and prints it as partial text,
    whether or not it contains the wake word; no pass that starts active
    prints [Activated]; and along every run [Activated] is only printed
    while inactive, a [Finalize] standing between any two of them. *)
Theorem no_retrigger_while_armed (p : assistant_params)
    (Ha : is_active p = true) :
  (forall c segments,
     vad_simple c = true -> whisper_full c = Some segments ->
     loop_body p c =
       Some (set_current_segment (current_segment p ++ join segments)
               (set_last_speech_time (clock_now c) p),
             map PartialText segments, sdl_poll_events c)) /\
  (forall c p' evs r, loop_body p c = Some (p', evs, r) -> ~ In Activated evs) /\
  (forall cs p' evs,
     main_loop p cs = Some (p', evs) ->
     activation_trace true evs = Some (is_active p') /\
     (In Activated evs -> exists u, In (Finalize u) evs)).
Proof.
  split; [|split].
  - intros c segments Hv Hw. rewrite (loop_body_speech p c _ Hv Hw).
    rewrite (segments_loop_active segments
               (set_last_speech_time (clock_now c) p) Ha).
    reflexivity.
  - intros c p' evs r Hb Hin.
    pose proof (loop_body_trace _ _ _ _ _ Hb) as Ht. rewrite Ha in Ht.
    destruct (activation_trace_armed_no_Activated _ _ Ht Hin) as [u Hu].
    pose proof (loop_body_after_Finalize _ _ _ _ _ _ Hb Hu) as ->.
    apply (loop_body_Finalize _ _ _ _ _ _ Hb) in Hu.
    destruct Hu as (Hv & Hf & _).
    destruct (loop_body_silence_finalize p c Hv Hf) as (reply & log & Hc & E).
    rewrite E in Hb. injection Hb as <- _.
    destruct Hin as [H|Hin]; [discriminate|].
    apply in_app_or in Hin. destruct Hin as [Hin|[H|[H|[]]]]; try discriminate.
    destruct (call_ollama_log _ _ _ _ _ Hc) as [->|[code ->]].
    + destruct Hin.
    + destruct Hin as [H|[]]. discriminate.
  - intros cs p' evs Hrun. pose proof (main_loop_trace _ _ _ _ Hrun) as Ht.
    rewrite Ha in Ht. split; [exact Ht|].
    exact (activation_trace_armed_no_Activated _ _ Ht).
Qed.

(** ** The utterance *)

(** A pass that starts active and does not finalize appends the segments
    of its window, if any, and stays active. *)
Lemma loop_body_armed_appends (p p' : assistant_params) (c : cycle)
    (evs : list event) (r : bool) :
  is_active p = true -> loop_body p c = Some (p', evs, r) ->
  (forall u, ~ In (Finalize u) evs) ->
  is_active p' = true /\ wake_word p' = wake_word p /\
  current_segment p' = current_segment p ++ join (transcript c).
Proof.
  intros Ha Hb Hopen. unfold transcript. destruct (vad_simple c) eqn:Hv.
  - destruct (whisper_full c) as [segments|] eqn:Hw.
    + rewrite (loop_body_speech p c segments Hv Hw) in Hb.
      rewrite (segments_loop_active segments
                 (set_last_speech_time (clock_now c) p) Ha) in Hb.
      injection Hb as <- _ _. auto.
    + rewrite (loop_body_transcription_failed p c Hv Hw) in Hb.
      injection Hb as <- _ _. cbn. rewrite append_nil_r. auto.
  - destruct (should_finalize p (clock_now c)) eqn:Hf.
    + exfalso. apply (Hopen (current_segment p)).
      apply (loop_body_Finalize _ _ _ _ _ _ Hb). auto.
    + rewrite (loop_body_silence_idle p c Hv Hf) in Hb.
      injection Hb as <- _ _. cbn. rewrite append_nil_r. auto.
Qed.

Lemma main_loop_armed_appends (cs : list cycle) (p p' : assistant_params)
    (evs : list event) :
  is_active p = true -> main_loop p cs = Some (p', evs) ->
  (forall u, ~ In (Finalize u) evs) ->
  is_active p' = true /\
  current_segment p' =
    current_segment p ++ join (flat_map transcript (executed cs)).
Proof.
  revert p evs. induction cs as [|c cs IH]; intros p evs Ha Hrun Hopen.
  - injection Hrun as <- _. cbn. rewrite append_nil_r. auto.
  - apply main_loop_inv in Hrun.
    destruct Hrun as (p1 & evs1 & Hb &
                      [(Hk & -> & ->)|(Hk & evs2 & Hr & ->)]).
    + destruct (loop_body_armed_appends _ _ _ _ _ Ha Hb Hopen) as (Ha1 & _ & Hc).
      cbn [executed]. rewrite Hk. cbn [flat_map]. rewrite app_nil_r. auto.
    + assert (Hopen1 : forall u, ~ In (Finalize u) evs1)
        by (intros u Hu; apply (Hopen u), in_or_app; now left).
      assert (Hopen2 : forall u, ~ In (Finalize u) evs2)
        by (intros u Hu; apply (Hopen u), in_or_app; now right).
      destruct (loop_body_armed_appends _ _ _ _ _ Ha Hb Hopen1)
        as (Ha1 & _ & Hc).
      destruct (IH _ _ Ha1 Hr Hopen2) as (HaN & HcN).
      split; [exact HaN|].
      cbn [executed]. rewrite Hk. cbn [flat_map].
      rewrite HcN, Hc, join_app, append_assoc. reflexivity.
Qed.

(** C5. Take a run whose first pass activates on the segment [s]: as long
    as no [Finalize] has been printed, the utterance is the concatenation,
    in arrival order, of the segments that followed [s] in its window and
    of the segments of all the later passes that were run ([s] itself and
    what came before it are left out). *)
Theorem utterance_is_concatenation (p pN : assistant_params) (c : cycle)
    (cs : list cycle) (pre post : list string) (s : string)
    (evs : list event)
    (Hd : is_active p = false) (Hempty : current_segment p = "")
    (Hv : vad_simple c = true)
    (Hw : whisper_full c = Some (pre ++ s :: post)%list)
    (Hno : no_wake_word (wake_word p) pre)
    (Hs : contains_wake_word s (wake_word p) = true)
    (Hrun : main_loop p (c :: cs) = Some (pN, evs))
    (Hopen : forall u, ~ In (Finalize u) evs) :
  is_active pN = true /\
  current_segment pN =
    join (post ++ flat_map transcript (tl (executed (c :: cs)))).
Proof.
  apply main_loop_inv in Hrun.
  rewrite (loop_body_wake_word p c pre post s Hd Hv Hw Hno Hs) in Hrun.
  cbn [executed tl].
  destruct Hrun as (p1 & evs1 & Hb &
                    [(Hk & -> & ->)|(Hk & evs2 & Hr & ->)]).
  - injection Hb as <- _ _. rewrite Hk. cbn [flat_map].
    rewrite app_nil_r. cbn. rewrite Hempty. auto.
  - injection Hb as <- <- Hk'.
    assert (Hopen2 : forall u, ~ In (Finalize u) evs2)
      by (intros u Hu; apply (Hopen u), in_or_app; now right).
    assert (Ha1 : is_active
              (set_current_segment (current_segment p ++ join post)
                 (set_is_active true (set_last_speech_time (clock_now c) p)))
              = true) by reflexivity.
    destruct (main_loop_armed_appends cs _ _ _ Ha1 Hr Hopen2) as (Ha & Hc).
    split; [exact Ha|]. rewrite Hc, Hk, join_app. cbn. rewrite Hempty.
    reflexivity.
Qed.

(** Inactive goes with an empty utterance: every pass keeps it so. *)
Lemma loop_body_dormant_empty (p p' : assistant_params) (c : cycle)
    (evs : list event) (r : bool) :
  (is_active p = false -> current_segment p = "") ->
  loop_body p c = Some (p', evs, r) ->
  is_active p' = false -> current_segment p' = "".
Proof.
  intros Hinv Hb Hd'. destruct (vad_simple c) eqn:Hv.
  - destruct (whisper_full c) as [segments|] eqn:Hw.
    + rewrite (loop_body_speech p c segments Hv Hw) in Hb.
      injection Hb as <- _ _.
      set (p1 := set_last_speech_time (clock_now c) p) in *.
      destruct (is_active p) eqn:Ha.
      * rewrite (segments_loop_active segments p1 Ha) in Hd'.
        cbn in Hd'. congruence.
      * destruct (first_wake_word (wake_word p1) segments)
          as [Hno|(pre & s & post & -> & Hno & Hs)].
        -- rewrite (segments_loop_no_wake_word segments p1 Ha Hno). cbn. auto.
        -- rewrite (segments_loop_wake_word pre post s p1 Ha Hno Hs) in Hd'.
           cbn in Hd'. discriminate.
    + rewrite (loop_body_transcription_failed p c Hv Hw) in Hb.
      injection Hb as <- _ _. cbn in *. auto.
  - destruct (should_finalize p (clock_now c)) eqn:Hf.
    + destruct (loop_body_silence_finalize p c Hv Hf) as (reply & log & _ & E).
      rewrite E in Hb. injection Hb as <- _ _. reflexivity.
    + rewrite (loop_body_silence_idle p c Hv Hf) in Hb.
      injection Hb as <- _ _. auto.
Qed.

Lemma should_finalize_inactive (p : assistant_params) (now : Z) :
  is_active p = false -> should_finalize p now = false.
Proof. intros Hd. unfold should_finalize. rewrite Hd. reflexivity. Qed.

(** C6. In every parameter state the loop can reach, inactive implies an
    empty utterance; right after a pass that prints [Finalize] the
    utterance is empty and the assistant inactive, and a following pass
    over a window without speech prints nothing and changes nothing. *)
Theorem dormant_utterance_empty :
  (forall p, reachable p -> is_active p = false -> current_segment p = "") /\
  (forall p c p' evs r u,
     loop_body p c = Some (p', evs, r) -> In (Finalize u) evs ->
     current_segment p' = "" /\ is_active p' = false /\
     forall c2, vad_simple c2 = false ->
       loop_body p' c2 = Some (p', [], sdl_poll_events c2)).
Proof.
  split.
  - intros p (cs & evs & Hrun).
    apply (main_loop_preserves
             (fun p => is_active p = false -> current_segment p = "")
             (fun p c p' evs r => loop_body_dormant_empty p p' c evs r)
             cs initial_params p evs);
      [reflexivity|exact Hrun].
  - intros p c p' evs r u Hb Hu.
    rewrite (loop_body_after_Finalize _ _ _ _ _ _ Hb Hu).
    split; [reflexivity|split; [reflexivity|]].
    intros c2 Hv2. apply loop_body_silence_idle; [exact Hv2|].
    apply should_finalize_inactive. reflexivity.
Qed.

(** ** Failures *)

(** C8. When the transcription of a window with speech fails, the pass
    leaves the activation flag and the utterance as they were, exactly as
    a transcription into zero segments does, and the loop goes on; when the
    request to the completion service fails in a pass that finalizes, the
    reply is empty, the utterance is cleared and the assistant goes back to
    inactive all the same, and the next silent pass sends nothing. *)
Theorem transient_failures (p : assistant_params) (c : cycle) :
  (vad_simple c = true -> whisper_full c = None ->
   exists p',
     loop_body p c = Some (p', [TranscribeFailed], true) /\
     is_active p' = is_active p /\ current_segment p' = current_segment p /\
     forall c0, vad_simple c0 = true -> whisper_full c0 = Some [] ->
       clock_now c0 = clock_now c ->
       loop_body p c0 = Some (p', [], sdl_poll_events c0)) /\
  (vad_simple c = false -> should_finalize p (clock_now c) = true ->
   curl_easy_init c = false \/
   (exists code,
      curl_easy_perform c (json_body (current_segment p)) = CURLE_error code) ->
   exists p' log,
     loop_body p c =
       Some (p',
             (Finalize (current_segment p) :: log ++ [Reply ""; Waiting])%list,
             sdl_poll_events c) /\
     is_active p' = false /\ current_segment p' = "" /\
     forall c2, vad_simple c2 = false ->
       loop_body p' c2 = Some (p', [], sdl_poll_events c2)).
Proof.
  split.
  - intros Hv Hw. exists (set_last_speech_time (clock_now c) p).
    split; [exact (loop_body_transcription_failed p c Hv Hw)|].
    split; [reflexivity|split; [reflexivity|]].
    intros c0 Hv0 Hw0 Hclock.
    rewrite (loop_body_speech p c0 [] Hv0 Hw0), Hclock. reflexivity.
  - intros Hv Hf Hfail.
    destruct (call_ollama_failure _ _ _ Hfail) as [log Hc].
    destruct (loop_body_silence_finalize p c Hv Hf) as (reply & log' & Hc' & E).
    rewrite Hc in Hc'. injection Hc' as <- <-.
    exists (set_is_active false (set_current_segment "" p)), log.
    split; [exact E|split; [reflexivity|split; [reflexivity|]]].
    intros c2 Hv2. apply loop_body_silence_idle; [exact Hv2|].
    apply should_finalize_inactive. reflexivity.
Qed.

(** ** The time of the last speech *)

(** A pass refreshes [last_speech_time] exactly when its window holds
    speech; the reset after [Finalize] leaves it alone. *)
Lemma loop_body_last_speech_time (p p' : assistant_params) (c : cycle)
    (evs : list event) (r : bool) :
  loop_body p c = Some (p', evs, r) ->
  last_speech_time p' =
    if vad_simple c then clock_now c else last_speech_time p.
Proof.
  intros Hb. destruct (vad_simple c) eqn:Hv.
  - destruct (whisper_full c) as [segments|] eqn:Hw.
    + rewrite (loop_body_speech p c segments Hv Hw) in Hb.
      injection Hb as <- _ _.
      set (p1 := set_last_speech_time (clock_now c) p).
      destruct (is_active p1) eqn:Ha.
      * rewrite (segments_loop_active segments p1 Ha). reflexivity.
      * destruct (first_wake_word (wake_word p1) segments)
          as [Hno|(pre & s & post & -> & Hno & Hs)].
        -- rewrite (segments_loop_no_wake_word segments p1 Ha Hno).
           reflexivity.
        -- rewrite (segments_loop_wake_word pre post s p1 Ha Hno Hs).
           reflexivity.
    + rewrite (loop_body_transcription_failed p c Hv Hw) in Hb.
      injection Hb as <- _ _. reflexivity.
  - destruct (should_finalize p (clock_now c)) eqn:Hf.
    + destruct (loop_body_silence_finalize p c Hv Hf) as (reply & log & _ & E).
      rewrite E in Hb. injection Hb as <- _ _. reflexivity.
    + rewrite (loop_body_silence_idle p c Hv Hf) in Hb.
      injection Hb as <- _ _. reflexivity.
Qed.

Lemma main_loop_last_speech_time (cs : list cycle) (p p' : assistant_params)
    (evs : list event) :
  main_loop p cs = Some (p', evs) ->
  last_speech_time p' = last_verdict_time (executed cs) (last_speech_time p).
Proof.
  revert p evs. induction cs as [|c cs IH]; intros p evs Hrun.
  - injection Hrun as <- _. reflexivity.
  - apply main_loop_inv in Hrun. cbn [executed].
    destruct Hrun as (p1 & evs1 & Hb &
                      [(Hk & -> & _)|(Hk & evs2 & Hr & _)]);
      rewrite Hk; unfold last_verdict_time; cbn [fold_left];
      rewrite <- (loop_body_last_speech_time _ _ _ _ _ Hb); [reflexivity|].
    exact (IH _ _ Hr).
Qed.

(** A run that ends active from an inactive start heard speech. *)
Lemma main_loop_active_heard (cs : list cycle) (p p' : assistant_params)
    (evs : list event) :
  main_loop p cs = Some (p', evs) -> is_active p = false ->
  is_active p' = true ->
  exists c, In c (executed cs) /\ vad_simple c = true.
Proof.
  revert p evs. induction cs as [|c cs IH]; intros p evs Hrun Hd Ha.
  - injection Hrun as <- _. congruence.
  - apply main_loop_inv in Hrun. cbn [executed].
    destruct (vad_simple c) eqn:Hv; [exists c; split; [now left|exact Hv]|].
    assert (Hidle : loop_body p c = Some (p, [], sdl_poll_events c))
      by (apply loop_body_silence_idle;
          [exact Hv|now apply should_finalize_inactive]).
    destruct Hrun as (p1 & evs1 & Hb &
                      [(Hk & -> & _)|(Hk & evs2 & Hr & _)]);
      rewrite Hidle in Hb; injection Hb as <- _ _; [congruence|].
    rewrite Hk. destruct (IH _ _ Hr Hd Ha) as (c' & Hin & Hv').
    exists c'. split; [now right|exact Hv'].
Qed.

Lemma executed_incl (cs : list cycle) (c : cycle) :
  In c (executed cs) -> In c cs.
Proof.
  induction cs as [|c0 cs IH]; [intros []|]. cbn [executed].
  intros [<-|Hin]; [now left|right].
  destruct (keeps_running c0); [auto|destruct Hin].
Qed.

(** The time kept is the initial one or the clock of a pass with
    speech. *)
Lemma last_verdict_time_cases (cs : list cycle) (t : Z) :
  ((forall c, In c cs -> vad_simple c = false) /\ last_verdict_time cs t = t)
  \/ exists c, In c cs /\ vad_simple c = true /\
               last_verdict_time cs t = clock_now c.
Proof.
  revert t. induction cs as [|c cs IH]; intros t.
  - left. split; [intros c []|reflexivity].
  - unfold last_verdict_time. cbn [fold_left].
    fold (last_verdict_time cs (if vad_simple c then clock_now c else t)).
    destruct (IH (if vad_simple c then clock_now c else t))
      as [(Hnone & E)|(c' & Hin & Hv & E)].
    + rewrite E. destruct (vad_simple c) eqn:Hv.
      * right. exists c. split; [now left|split; [exact Hv|reflexivity]].
      * left. split; [|reflexivity]. intros c' [<-|Hin]; auto.
    + right. exists c'. split; [now right|split; [exact Hv|exact E]].
Qed.

(** C7, as the code has it. Along every run from the initial parameters,
    [last_speech_time] is the clock reading of the last pass with a speech
    verdict, active or not and transcribed or not, and 0 when there has
    been none; with clock readings other than 0 it is therefore set exactly
    when some pass since the start of the program held speech, which is the
    case in every active state; and a pass without speech, the one that
    finalizes included, leaves it as it is. *)
Theorem last_speech_time_tracks_verdicts (cs : list cycle)
    (p : assistant_params) (evs : list event)
    (Hrun : main_loop initial_params cs = Some (p, evs))
    (Hclock : forall c, In c cs -> clock_now c <> 0) :
  last_speech_time p = last_verdict_time (executed cs) 0 /\
  (lastSpeechAt p <> None <->
   exists c, In c (executed cs) /\ vad_simple c = true) /\
  (is_active p = true -> lastSpeechAt p <> None) /\
  (forall c p' evs' r,
     loop_body p c = Some (p', evs', r) ->
     last_speech_time p' =
       if vad_simple c then clock_now c else last_speech_time p).
Proof.
  pose proof (main_loop_last_speech_time cs _ _ _ Hrun) as Ht.
  cbn [initial_params last_speech_time] in Ht.
  assert (Hiff : lastSpeechAt p <> None <->
                 exists c, In c (executed cs) /\ vad_simple c = true).
  { unfold lastSpeechAt. rewrite Ht.
    destruct (last_verdict_time_cases (executed cs) 0)
      as [(Hnone & E)|(c & Hin & Hv & E)].
    - rewrite E. cbn. split; [congruence|].
      intros (c & Hin & Hv). rewrite (Hnone c Hin) in Hv. discriminate.
    - rewrite E. pose proof (Hclock c (executed_incl _ _ Hin)) as Hne.
      apply Z.eqb_neq in Hne. rewrite Hne.
      split; [intros _; now exists c|discriminate]. }
  split; [exact Ht|split; [exact Hiff|split]].
  - intros Ha. apply Hiff.
    exact (main_loop_active_heard cs _ _ _ Hrun eq_refl Ha).
  - intros c p' evs' r. apply loop_body_last_speech_time.
Qed.

(** C7, as the spec states it, fails: after speech without the wake word,
    activation, an utterance and its [Finalize], the assistant is inactive
    again and [last_speech_time] still holds the time of the last speech;
    so a time can be set while inactive and the reset does not unset
    it. *)
Lemma lastSpeechAt_survives_finalize :
  main_loop initial_params
    [speech_pass 4000 ["hello"]; speech_pass 5000 ["test"];
     speech_pass 6000 ["hi"]; silent_pass 8000]
  = Some (sample_params false "" 6000,
          [Activated; PartialText "hi"; Finalize "hi"; CurlFailed 7;
           Reply ""; Waiting]) /\
  main_loop initial_params [speech_pass 4000 ["hello"]]
  = Some (sample_params false "" 4000, []) /\
  lastSpeechAt (sample_params false "" 6000) = Some 6000 /\
  lastSpeechAt (sample_params false "" 4000) = Some 4000 /\
  ~ (forall p, reachable p -> lastSpeechAt p <> None -> is_active p = true).
Proof.
  split; [reflexivity|]. split; [reflexivity|].
  split; [reflexivity|]. split; [reflexivity|].
  intros H.
  assert (Hr : reachable (sample_params false "" 4000))
    by (exists [speech_pass 4000 ["hello"]], []; reflexivity).
  specialize (H _ Hr). cbn in H.
  assert (Hf : false = true) by (apply H; discriminate).
  discriminate Hf.
Qed.

(** ** The reply of the completion service *)

Lemma skip_app (pre x : string) (n : nat) :
  skip (String.length pre + n) (pre ++ x) = skip n x.
Proof. induction pre as [|c pre IH]; [reflexivity|exact IH]. Qed.

(** On a line where the 12-character pattern is found, the offset 11
    leaves [start] on the opening quote of the value, [end] is found at
    [start] itself, and the fragment appended is empty. *)
Lemma parse_line_at_opening_quote (result pre post : string) :
  size (pre ++ response_open ++ post) < npos ->
  find (pre ++ response_open ++ post) response_open 0 = size pre ->
  parse_line result (pre ++ response_open ++ post) = Some result.
Proof.
  intros Hfit Hfound. set (line := pre ++ response_open ++ post) in *.
  assert (Hsize : size line = size pre + 12 + size post).
  { unfold line. rewrite !size_append. change (size response_open) with 12.
    lia. }
  pose proof (size_nonneg pre) as Hpre. pose proof (size_nonneg post) as Hpost.
  unfold npos, size_t_modulus in Hfit.
  unfold parse_line.
  assert (Hkey : find line response_key 0 <> npos).
  { rewrite find_from_start. unfold line, response_open.
    rewrite append_assoc.
    pose proof (find_here_complete pre response_key (quote_str ++ post) 0).
    unfold npos, size_t_modulus. lia. }
  apply Z.eqb_neq in Hkey. rewrite Hkey. cbn [negb].
  rewrite Hfound.
  assert (Hstart : size_t_wrap (size pre + 11) = size pre + 11).
  { unfold size_t_wrap, size_t_modulus. apply Z.mod_small. lia. }
  rewrite Hstart.
  assert (Hne : (size pre + 11 =? npos) = false).
  { apply Z.eqb_neq. unfold npos, size_t_modulus. lia. }
  rewrite Hne. cbn [negb andb].
  assert (Hin : (size line <? size pre + 11) = false)
    by (apply Z.ltb_ge; lia).
  assert (Hend : find line quote_str (size pre + 11) = size pre + 11).
  { unfold find. rewrite Hin.
    replace (Z.to_nat (size pre + 11)) with (String.length pre + 11)%nat
      by (unfold size; lia).
    unfold line. rewrite skip_app.
    change (skip 11 (response_open ++ post)) with (quote_str ++ post).
    assert (E : String.prefix quote_str (quote_str ++ post) = true)
      by (apply prefix_iff; now exists post).
    cbn [append quote_str] in *. cbn [find_here]. rewrite E. reflexivity. }
  rewrite Hend, Hne. cbn [negb].
  unfold substr. rewrite Hin, Z.sub_diag. cbn. rewrite append_nil_r.
  reflexivity.
Qed.

(** Every line that holds a [response] member written the way the service
    writes it contributes the empty string. *)
Lemma parse_line_drops_fragment (result line : string) :
  size line < npos -> contiguous_substring response_open line ->
  parse_line result line = Some result.
Proof.
  intros Hfit (pre & post & Hline).
  pose proof (find_here_complete pre response_open post 0) as Hle.
  rewrite <- Hline in Hle.
  destruct (find_here_sound line response_open 0)
    as [Hnpos|(pre0 & post0 & Hline0 & Hr)].
  - exfalso. rewrite Hline, !size_append in Hfit.
    pose proof (size_nonneg post). change (size response_open) with 12 in Hfit.
    lia.
  - subst line. rewrite Hline0. rewrite Hline0 in Hfit, Hr.
    apply parse_line_at_opening_quote; [exact Hfit|].
    rewrite find_from_start. lia.
Qed.

(** C9 on the code. The service answers with one line whose [response]
    member is [Hi]; [call_ollama] returns the empty string, where the
    concatenation of the fragments is [Hi]. *)
Theorem call_ollama_drops_response :
  hi_line = String "{" (String dquote "response" ++ String dquote ":"
              ++ String dquote "Hi" ++ String dquote ","
              ++ String dquote "done" ++ String dquote ":false}") /\
  call_ollama true (fun _ => CURLE_OK [hi_body]) "hello" = Some ("", []) /\
  call_ollama true (fun _ => CURLE_OK [hi_body; hi_body]) "hello"
    = Some ("", []).
Proof. repeat split. Qed.

(** When the 12-character pattern is not found, [npos + 11] wraps to 10
    and the text from index 10 to the next quote is taken as fragment. *)
Example call_ollama_spaced_line :
  call_ollama true (fun _ => CURLE_OK [spaced_line]) "hello"
    = Some ("678,", []).
Proof. reflexivity. Qed.

(** ** The theorems at work on sample sessions *)

(** The walk-through: the wake phrase in the second segment of a window,
    one more window of speech, a short silence, then a silence longer than
    the threshold. *)
Example hey_assistant_session :
  main_loop hey_params
    [speech_pass 1000 [""; "hey assistant can you help"];
     speech_pass 2000 ["set a timer"];
     answered_pass 2500;
     answered_pass 3001]
  = Some ({| wake_word := "hey assistant";
             silence_threshold_ms := 1000;
             is_active := false;
             current_segment := "";
             last_speech_time := 2000 |},
          [Activated; PartialText "set a timer"; Finalize "set a timer";
           Reply ""; Waiting]).
Proof. reflexivity. Qed.

Lemma finalize_iff_long_silence_witness :
  exists p' evs r,
    loop_body (sample_params true "hi" 5000) (silent_pass 6001)
      = Some (p', evs, r) /\
    In (Finalize "hi") evs /\ current_segment p' = "" /\ is_active p' = false.
Proof.
  destruct (finalize_iff_long_silence (sample_params true "hi" 5000)
              (silent_pass 6001))
    as (p' & evs & r & Hb & _ & Hafter & Hthreshold & _).
  assert (Hin : In (Finalize "hi") evs).
  { apply Hthreshold; [unfold int_range; simpl; lia | reflexivity
                      | reflexivity | discriminate | reflexivity]. }
  exists p', evs, r. split; [exact Hb|]. split; [exact Hin|].
  exact (proj2 (Hafter "hi" Hin)).
Defined.

Lemma dormant_pass_witness :
  is_active (sample_params false "" 0) = false /\
  loop_body (sample_params false "" 0)
    (speech_pass 5000 [""; "run a test please"; "more"])
  = Some (sample_params true "more" 5000,
          [Activated; PartialText "more"], true).
Proof.
  split; [reflexivity|].
  apply (proj1 (dormant_pass (sample_params false "" 0)
                  (speech_pass 5000 [""; "run a test please"; "more"])
                  eq_refl) [""] "run a test please" ["more"]).
  - reflexivity.
  - reflexivity.
  - intros text [<-|[]]. reflexivity.
  - reflexivity.
Defined.

Lemma no_retrigger_while_armed_witness :
  is_active (sample_params true "hi" 5000) = true /\
  loop_body (sample_params true "hi" 5000) (speech_pass 7000 [" test again"])
  = Some (sample_params true "hi test again" 7000,
          [PartialText " test again"], true).
Proof.
  split; [reflexivity|].
  apply (proj1 (no_retrigger_while_armed (sample_params true "hi" 5000)
                  eq_refl)
           (speech_pass 7000 [" test again"]) [" test again"]);
    reflexivity.
Defined.

Lemma utterance_is_concatenation_witness :
  is_active (sample_params true "set a timer" 6000) = true /\
  current_segment (sample_params true "set a timer" 6000) =
    join (["set"] ++
          flat_map transcript
            (tl (executed [speech_pass 5000 [""; "test"; "set"];
                           speech_pass 6000 [" a"; " timer"];
                           silent_pass 6500])))%list.
Proof.
  apply (utterance_is_concatenation (sample_params false "" 0)
           (sample_params true "set a timer" 6000)
           (speech_pass 5000 [""; "test"; "set"])
           [speech_pass 6000 [" a"; " timer"]; silent_pass 6500]
           [""] ["set"] "test"
           [Activated; PartialText "set"; PartialText " a";
            PartialText " timer"]).
  - reflexivity.
  - reflexivity.
  - reflexivity.
  - reflexivity.
  - intros text [<-|[]]. reflexivity.
  - reflexivity.
  - reflexivity.
  - intros u [H|[H|[H|[H|[]]]]]; discriminate H.
Defined.

Lemma dormant_utterance_empty_witness :
  reachable (sample_params false "" 6000) /\
  is_active (sample_params false "" 6000) = false /\
  current_segment (sample_params false "" 6000) = "" /\
  loop_body (sample_params true "hi" 6000) (silent_pass 8000)
    = Some (sample_params false "" 6000,
            [Finalize "hi"; CurlFailed 7; Reply ""; Waiting], true) /\
  loop_body (sample_params false "" 6000) (silent_pass 9000)
    = Some (sample_params false "" 6000, [], true).
Proof.
  assert (Hr : reachable (sample_params false "" 6000)).
  { exists [speech_pass 4000 ["hello"]; speech_pass 5000 ["test"];
            speech_pass 6000 ["hi"]; silent_pass 8000],
           [Activated; PartialText "hi"; Finalize "hi"; CurlFailed 7;
            Reply ""; Waiting].
    reflexivity. }
  split; [exact Hr|]. split; [reflexivity|]. split.
  - exact (proj1 dormant_utterance_empty (sample_params false "" 6000) Hr
             eq_refl).
  - split; [reflexivity|].
    destruct (proj2 dormant_utterance_empty
                (sample_params true "hi" 6000) (silent_pass 8000)
                (sample_params false "" 6000)
                [Finalize "hi"; CurlFailed 7; Reply ""; Waiting] true "hi"
                eq_refl (or_introl eq_refl)) as (_ & _ & Hidle).
    exact (Hidle (silent_pass 9000) eq_refl).
Defined.

Lemma last_speech_time_tracks_verdicts_witness :
  main_loop initial_params [speech_pass 4000 ["hello"]]
    = Some (sample_params false "" 4000, []) /\
  last_speech_time (sample_params false "" 4000)
    = last_verdict_time (executed [speech_pass 4000 ["hello"]]) 0.
Proof.
  split; [reflexivity|].
  apply (last_speech_time_tracks_verdicts [speech_pass 4000 ["hello"]]
           (sample_params false "" 4000) []).
  - reflexivity.
  - intros c [<-|[]]. discriminate.
Defined.

Lemma transient_failures_witness :
  exists p',
    loop_body (sample_params true "hi" 5000) (failed_pass 7000)
      = Some (p', [TranscribeFailed], true) /\
    is_active p' = true /\ current_segment p' = "hi".
Proof.
  destruct (proj1 (transient_failures (sample_params true "hi" 5000)
                     (failed_pass 7000)) eq_refl eq_refl)
    as (p' & Hb & Ha & Hc & _).
  exists p'. split; [exact Hb|]. split; [exact Ha|exact Hc].
Defined.

Lemma empty_wake_word_activates_witness :
  exists p',
    loop_body empty_wake_params (speech_pass 5000 ["anything"; "more"])
      = Some (p', [Activated; PartialText "more"], true) /\
    is_active p' = true.
Proof.
  exact (proj2 (empty_wake_word_activates empty_wake_params
                  (speech_pass 5000 ["anything"; "more"])
                  "anything" ["more"] eq_refl eq_refl eq_refl eq_refl)).
Defined.

(** * Further properties of the loop *)

Lemma loop_body_config (p p' : assistant_params) (c : cycle)
    (evs : list event) (r : bool) :
  loop_body p c = Some (p', evs, r) ->
  wake_word p' = wake_word p /\
  silence_threshold_ms p' = silence_threshold_ms p.
Proof.
  intros Hb. destruct (vad_simple c) eqn:Hv.
  - destruct (whisper_full c) as [segments|] eqn:Hw.
    + rewrite (loop_body_speech p c segments Hv Hw) in Hb.
      injection Hb as <- _ _.
      set (p1 := set_last_speech_time (clock_now c) p).
      destruct (is_active p1) eqn:Ha.
      * rewrite (segments_loop_active segments p1 Ha). auto.
      * destruct (first_wake_word (wake_word p1) segments)
          as [Hno|(pre & s & post & -> & Hno & Hs)].
        -- rewrite (segments_loop_no_wake_word segments p1 Ha Hno). auto.
        -- rewrite (segments_loop_wake_word pre post s p1 Ha Hno Hs). auto.
    + rewrite (loop_body_transcription_failed p c Hv Hw) in Hb.
      injection Hb as <- _ _. auto.
  - destruct (should_finalize p (clock_now c)) eqn:Hf.
    + destruct (loop_body_silence_finalize p c Hv Hf) as (reply & log & _ & E).
      rewrite E in Hb. injection Hb as <- _ _. auto.
    + rewrite (loop_body_silence_idle p c Hv Hf) in Hb.
      injection Hb as <- _ _. auto.
Qed.

(** X1. The wake word and the silence threshold are never changed by the
    loop: after any run they are what they were at its start, so every
    state reached from the default parameters has the wake word [test] and
    the threshold 1000. *)
Theorem configuration_is_fixed :
  (forall cs p p' evs,
     main_loop p cs = Some (p', evs) ->
     wake_word p' = wake_word p /\
     silence_threshold_ms p' = silence_threshold_ms p) /\
  (forall p, reachable p ->
     wake_word p = "test" /\ silence_threshold_ms p = 1000).
Proof.
  assert (Hrun : forall cs p p' evs,
            main_loop p cs = Some (p', evs) ->
            wake_word p' = wake_word p /\
            silence_threshold_ms p' = silence_threshold_ms p).
  { intros cs p p' evs.
    apply (main_loop_preserves
             (fun q => wake_word q = wake_word p /\
                       silence_threshold_ms q = silence_threshold_ms p));
      [|auto].
    intros q c q' evs' r (Hw & Ht) Hb.
    destruct (loop_body_config _ _ _ _ _ Hb) as (Hw' & Ht'). split; congruence. }
  split; [exact Hrun|].
  intros p (cs & evs & H). exact (Hrun _ _ _ _ H).
Qed.

Lemma configuration_is_fixed_witness :
  reachable (sample_params true "hi" 6000) /\
  wake_word (sample_params true "hi" 6000) = "test" /\
  silence_threshold_ms (sample_params true "hi" 6000) = 1000.
Proof.
  assert (Hr : reachable (sample_params true "hi" 6000)).
  { exists [speech_pass 5000 ["test"]; speech_pass 6000 ["hi"]],
           [Activated; PartialText "hi"]. reflexivity. }
  split; [exact Hr|]. exact (proj2 configuration_is_fixed _ Hr).
Defined.

(** X2. The passes scripted after the one that clears [is_running] are
    never run: a run over a script is the run over its executed part. *)
Theorem run_stops_when_left (cs : list cycle) (p : assistant_params) :
  main_loop p cs = main_loop p (executed cs).
Proof.
  revert p. induction cs as [|c cs IH]; intros p; [reflexivity|].
  cbn [executed]. destruct (keeps_running c) eqn:Hk; cbn [main_loop];
    destruct (loop_body p c) as [[[p1 evs1] r]|] eqn:Hb; try reflexivity;
    rewrite (loop_body_keeps_running _ _ _ _ _ Hb), Hk.
  - rewrite IH. reflexivity.
  - reflexivity.
Qed.

(** X3. Runs compose: when every pass of a first script leaves
    [is_running] true, the run over that script followed by a second one is
    the run over the second from the parameters the first reaches, the
    printed events put one after the other. *)
Theorem runs_compose (cs1 cs2 : list cycle) (p : assistant_params)
    (Hon : forall c, In c cs1 -> keeps_running c = true) :
  exists p1 evs1,
    main_loop p cs1 = Some (p1, evs1) /\
    main_loop p (cs1 ++ cs2)%list =
      match main_loop p1 cs2 with
      | Some (p2, evs2) => Some (p2, (evs1 ++ evs2)%list)
      | None => None
      end.
Proof.
  revert p. induction cs1 as [|c cs1 IH]; intros p.
  - exists p, []. split; [reflexivity|]. cbn [app].
    destruct (main_loop p cs2) as [[p2 evs2]|]; reflexivity.
  - cbn [app main_loop].
    destruct (loop_body_returns p c) as (q & evs & r & Hb). rewrite Hb.
    rewrite (loop_body_keeps_running _ _ _ _ _ Hb), (Hon c (or_introl eq_refl)).
    destruct (IH (fun c' H => Hon c' (or_intror H)) q) as (p1 & evs1 & H1 & H2).
    rewrite H1, H2. exists p1, (evs ++ evs1)%list. split; [reflexivity|].
    destruct (main_loop p1 cs2) as [[p2 evs2]|]; [|reflexivity].
    rewrite app_assoc. reflexivity.
Qed.

Lemma runs_compose_witness :
  exists p1 evs1,
    main_loop initial_params [speech_pass 5000 ["test"]] = Some (p1, evs1) /\
    main_loop initial_params
      ([speech_pass 5000 ["test"]] ++ [speech_pass 6000 ["hi"]])%list =
      match main_loop p1 [speech_pass 6000 ["hi"]] with
      | Some (p2, evs2) => Some (p2, (evs1 ++ evs2)%list)
      | None => None
      end.
Proof.
  apply (runs_compose [speech_pass 5000 ["test"]] [speech_pass 6000 ["hi"]]
           initial_params).
  intros c [<-|[]]. reflexivity.
Defined.

Lemma pending_app (e1 e2 : list event) (acc : string) :
  pending acc (e1 ++ e2)%list = pending (pending acc e1) e2.
Proof.
  revert acc. induction e1 as [|e e1 IH]; intros acc; [reflexivity|].
  destruct e; cbn [app pending]; apply IH.
Qed.

Lemma echoes_app (e1 e2 : list event) (acc : string) :
  echoes acc e1 -> echoes (pending acc e1) e2 -> echoes acc (e1 ++ e2)%list.
Proof.
  revert acc. induction e1 as [|e e1 IH]; intros acc; [intros _ H; exact H|].
  destruct e; cbn [app pending echoes]; try apply IH.
  intros (Hu & H1) H2. split; [exact Hu|exact (IH _ H1 H2)].
Qed.

Lemma pending_PartialText (segments : list string) (acc : string) :
  pending acc (map PartialText segments) = acc ++ join segments.
Proof.
  revert acc. induction segments as [|t l IH]; intros acc.
  - cbn. rewrite append_nil_r. reflexivity.
  - cbn [map pending]. rewrite IH, join_cons, append_assoc. reflexivity.
Qed.

Lemma echoes_PartialText (segments : list string) (acc : string) :
  echoes acc (map PartialText segments).
Proof.
  revert acc. induction segments as [|t l IH]; intros acc; [exact I|apply IH].
Qed.

(** What a pass prints, by cases on how it starts and what it meets. *)
Lemma loop_body_cases (p p' : assistant_params) (c : cycle)
    (evs : list event) (r : bool) :
  loop_body p c = Some (p', evs, r) ->
  (exists segments, evs = map PartialText segments /\
     current_segment p' = current_segment p ++ join segments) \/
  (exists segments, evs = Activated :: map PartialText segments /\
     current_segment p' = current_segment p ++ join segments) \/
  (evs = [TranscribeFailed] /\ current_segment p' = current_segment p) \/
  (exists reply, vad_simple c = false /\ current_segment p' = "" /\
     (evs = [Finalize (current_segment p); Reply reply; Waiting] \/
      exists code, evs = [Finalize (current_segment p); CurlFailed code;
                          Reply reply; Waiting])).
Proof.
  intros Hb. destruct (vad_simple c) eqn:Hv.
  - destruct (whisper_full c) as [segments|] eqn:Hw.
    + rewrite (loop_body_speech p c segments Hv Hw) in Hb.
      injection Hb as <- <- _.
      set (p1 := set_last_speech_time (clock_now c) p).
      destruct (is_active p1) eqn:Ha.
      * rewrite (segments_loop_active segments p1 Ha). left.
        exists segments. auto.
      * destruct (first_wake_word (wake_word p1) segments)
          as [Hno|(pre & s & post & -> & Hno & Hs)].
        -- rewrite (segments_loop_no_wake_word segments p1 Ha Hno). left.
           exists []. cbn. rewrite append_nil_r. auto.
        -- rewrite (segments_loop_wake_word pre post s p1 Ha Hno Hs).
           right. left. exists post. auto.
    + rewrite (loop_body_transcription_failed p c Hv Hw) in Hb.
      injection Hb as <- <- _. right. right. left. auto.
  - destruct (should_finalize p (clock_now c)) eqn:Hf.
    + destruct (loop_body_silence_finalize p c Hv Hf) as (reply & log & Hc & E).
      rewrite E in Hb. injection Hb as <- <- _. right. right. right.
      exists reply. split; [reflexivity|split; [reflexivity|]].
      destruct (call_ollama_log _ _ _ _ _ Hc) as [->|[code ->]];
        [left; reflexivity|right; exists code; reflexivity].
    + rewrite (loop_body_silence_idle p c Hv Hf) in Hb.
      injection Hb as <- <- _. left. exists []. cbn.
      rewrite append_nil_r. auto.
Qed.

Lemma loop_body_echoes (p p' : assistant_params) (c : cycle)
    (evs : list event) (r : bool) :
  loop_body p c = Some (p', evs, r) ->
  echoes (current_segment p) evs /\
  pending (current_segment p) evs = current_segment p'.
Proof.
  intros Hb.
  destruct (loop_body_cases _ _ _ _ _ Hb)
    as [(l & -> & ->)|[(l & -> & ->)|[(-> & ->)|
        (reply & _ & -> & [->|(code & ->)])]]]; cbn [echoes pending];
    auto using echoes_PartialText, pending_PartialText.
Qed.

(** Along every run each [Finalize] carries the partial text printed
    since the one before it, and the utterance held at the end is the
    partial text printed since the last one. *)
Lemma main_loop_echoes (cs : list cycle) (p p' : assistant_params)
    (evs : list event) :
  main_loop p cs = Some (p', evs) ->
  echoes (current_segment p) evs /\
  current_segment p' = pending (current_segment p) evs.
Proof.
  revert p evs. induction cs as [|c cs IH]; intros p evs Hrun.
  - injection Hrun as <- <-. split; [exact I|reflexivity].
  - apply main_loop_inv in Hrun.
    destruct Hrun as (p1 & evs1 & Hb &
                      [(_ & -> & ->)|(_ & evs2 & Hr & ->)]);
      destruct (loop_body_echoes _ _ _ _ _ Hb) as (He & Hp).
    + split; [exact He|symmetry; exact Hp].
    + destruct (IH _ _ Hr) as (He2 & Hp2). rewrite pending_app, Hp. split.
      * apply echoes_app; [exact He|]. rewrite Hp. exact He2.
      * exact Hp2.
Qed.

(** A run whose passes all leave [is_running] true goes on with the next
    pass. *)
Lemma main_loop_snoc (cs : list cycle) (c : cycle)
    (p p1 p2 : assistant_params) (evs1 evs2 : list event) (r : bool) :
  (forall c', In c' cs -> keeps_running c' = true) ->
  main_loop p cs = Some (p1, evs1) ->
  loop_body p1 c = Some (p2, evs2, r) ->
  main_loop p (cs ++ [c])%list = Some (p2, (evs1 ++ evs2)%list).
Proof.
  revert p evs1. induction cs as [|c0 cs IH]; intros p evs1 Hon Hrun Hb.
  - injection Hrun as <- <-. cbn [app main_loop]. rewrite Hb.
    destruct r; [rewrite app_nil_r|]; reflexivity.
  - apply main_loop_inv in Hrun. rewrite (Hon c0 (or_introl eq_refl)) in Hrun.
    destruct Hrun as (q & evs0 & Hb0 &
                      [(Hk & _)|(_ & evs' & Hr & ->)]); [discriminate|].
    cbn [app main_loop]. rewrite Hb0.
    rewrite (IH q evs' (fun c' H => Hon c' (or_intror H)) Hr Hb).
    rewrite app_assoc. reflexivity.
Qed.

(** The only request of [call_ollama] is the one for the body built from
    its prompt. *)
Lemma call_ollama_one_request (init : bool)
    (perform perform' : string -> curl_result) (prompt : string) :
  perform' (json_body prompt) = perform (json_body prompt) ->
  call_ollama init perform' prompt = call_ollama init perform prompt.
Proof. intros H. unfold call_ollama. rewrite H. reflexivity. Qed.

(** X5. What is sent is what was echoed. Take a run whose passes all
    leave [is_running] true and a next pass that prints [Finalize]: the
    text it carries is the partial text printed since the previous
    [Finalize] of the run; that same text is the prompt handed to
    [call_ollama], whose reply and log are what the pass prints after
    [Finalize]; the one request made to libcurl is for the JSON body built
    from that text (any transfer function answering that body alike gives
    the same reply); and the run with the pass added ends with the
    utterance cleared. *)
Theorem echoed_text_is_dispatched (cs : list cycle) (c : cycle)
    (p p1 p2 : assistant_params) (evs1 evs2 : list event) (r : bool)
    (u : string)
    (Hon : forall c', In c' cs -> keeps_running c' = true)
    (Hrun : main_loop p cs = Some (p1, evs1))
    (Hpass : loop_body p1 c = Some (p2, evs2, r))
    (Hfin : In (Finalize u) evs2) :
  u = pending (current_segment p) evs1 /\
  (exists reply log,
     call_ollama (curl_easy_init c) (curl_easy_perform c)
       (pending (current_segment p) evs1) = Some (reply, log) /\
     evs2 = (Finalize u :: log ++ [Reply reply; Waiting])%list /\
     forall perform',
       perform' (json_body (pending (current_segment p) evs1))
       = curl_easy_perform c (json_body (pending (current_segment p) evs1)) ->
       call_ollama (curl_easy_init c) perform'
         (pending (current_segment p) evs1) = Some (reply, log)) /\
  main_loop p (cs ++ [c])%list = Some (p2, (evs1 ++ evs2)%list) /\
  echoes (current_segment p) (evs1 ++ evs2)%list /\
  current_segment p2 = "".
Proof.
  destruct (main_loop_echoes cs p p1 evs1 Hrun) as (_ & Hcur).
  pose proof (main_loop_snoc cs c p p1 p2 evs1 evs2 r Hon Hrun Hpass) as Hsnoc.
  pose proof (proj1 (loop_body_Finalize _ _ _ _ _ u Hpass) Hfin)
    as (Hv & Hf & Hu).
  destruct (loop_body_silence_finalize p1 c Hv Hf) as (reply & log & Hc & E).
  rewrite E in Hpass. injection Hpass as <- <- _.
  rewrite Hcur in Hu, Hc. subst u.
  split; [reflexivity|]. split; [|split; [exact Hsnoc|split]].
  - exists reply, log. split; [exact Hc|]. split; [rewrite Hcur; reflexivity|].
    intros perform' Hsame.
    rewrite (call_ollama_one_request _ _ _ _ Hsame). exact Hc.
  - exact (proj1 (main_loop_echoes _ _ _ _ Hsnoc)).
  - reflexivity.
Qed.

Lemma echoed_text_is_dispatched_witness :
  "set a timer" = pending "" [Activated; PartialText "set";
                              PartialText " a timer"] /\
  exists reply log,
    call_ollama true no_service
      (pending "" [Activated; PartialText "set"; PartialText " a timer"])
    = Some (reply, log) /\
    [Finalize "set a timer"; CurlFailed 7; Reply ""; Waiting]
    = (Finalize "set a timer" :: log ++ [Reply reply; Waiting])%list.
Proof.
  destruct (echoed_text_is_dispatched
              [speech_pass 5000 ["a test"; "set"];
               speech_pass 6000 [" a timer"]]
              (silent_pass 7001)
              initial_params (sample_params true "set a timer" 6000)
              (sample_params false "" 6000)
              [Activated; PartialText "set"; PartialText " a timer"]
              [Finalize "set a timer"; CurlFailed 7; Reply ""; Waiting]
              true "set a timer")
    as (Hu & (reply & log & Hc & He & _) & _).
  - intros c' [<-|[<-|[]]]; reflexivity.
  - reflexivity.
  - reflexivity.
  - left. reflexivity.
  - split; [exact Hu|]. exists reply, log. split; [exact Hc|exact He].
Defined.

Lemma count_app (f : event -> bool) (e1 e2 : list event) :
  count f (e1 ++ e2)%list = (count f e1 + count f e2)%nat.
Proof. unfold count. rewrite filter_app, length_app. reflexivity. Qed.

Lemma count_PartialText (f : event -> bool) (segments : list string) :
  (forall text, f (PartialText text) = false) ->
  count f (map PartialText segments) = 0%nat.
Proof.
  intros Hf. unfold count. induction segments as [|t l IH]; [reflexivity|].
  cbn [map filter]. rewrite Hf. exact IH.
Qed.

Lemma loop_body_counts (p p' : assistant_params) (c : cycle)
    (evs : list event) (r : bool) :
  loop_body p c = Some (p', evs, r) ->
  count is_Reply evs = count is_Finalize evs /\
  count is_Waiting evs = count is_Finalize evs /\
  (count is_CurlFailed evs <= count is_Finalize evs)%nat /\
  (vad_simple c = true -> count is_Finalize evs = 0%nat).
Proof.
  intros Hb.
  destruct (loop_body_cases _ _ _ _ _ Hb)
    as [(l & -> & _)|[(l & -> & _)|[(-> & _)|
        (reply & Hv & _ & [->|(code & ->)])]]].
  - rewrite !count_PartialText by reflexivity. auto.
  - change (Activated :: map PartialText l)
      with ([Activated] ++ map PartialText l)%list.
    rewrite !count_app, !count_PartialText by reflexivity. cbn. auto.
  - cbn. auto.
  - cbn. rewrite Hv. repeat split; auto; discriminate.
  - cbn. rewrite Hv. repeat split; auto; discriminate.
Qed.

(** X6. One reply per dispatch: in the trace of every run the numbers of
    [Reply] lines and of [Waiting] lines equal the number of [Finalize]
    lines, and there are at most as many curl failures reported. *)
Theorem one_reply_per_finalize (cs : list cycle) (p p' : assistant_params)
    (evs : list event) (Hrun : main_loop p cs = Some (p', evs)) :
  count is_Reply evs = count is_Finalize evs /\
  count is_Waiting evs = count is_Finalize evs /\
  (count is_CurlFailed evs <= count is_Finalize evs)%nat.
Proof.
  revert p evs Hrun. induction cs as [|c cs IH]; intros p evs Hrun.
  - injection Hrun as _ <-. cbn. auto.
  - apply main_loop_inv in Hrun.
    destruct Hrun as (p1 & evs1 & Hb &
                      [(_ & -> & ->)|(_ & evs2 & Hr & ->)]);
      destruct (loop_body_counts _ _ _ _ _ Hb) as (H1 & H2 & H3 & _).
    + auto.
    + destruct (IH _ _ Hr) as (H1' & H2' & H3'). rewrite !count_app.
      repeat split; lia.
Qed.

Lemma one_reply_per_finalize_witness :
  count is_Reply [Activated; PartialText "hi"; Finalize "hi"; CurlFailed 7;
                  Reply ""; Waiting] = 1%nat.
Proof.
  exact (proj1 (one_reply_per_finalize
                  [speech_pass 4000 ["hello"]; speech_pass 5000 ["test"];
                   speech_pass 6000 ["hi"]; silent_pass 8000]
                  initial_params (sample_params false "" 6000)
                  [Activated; PartialText "hi"; Finalize "hi"; CurlFailed 7;
                   Reply ""; Waiting] eq_refl)).
Defined.

Lemma count_zero_not_In (f : event -> bool) (evs : list event) (e : event) :
  count f evs = 0%nat -> f e = true -> ~ In e evs.
Proof.
  unfold count. intros H0 Hf Hin.
  assert (Hin' : In e (filter f evs)) by (apply filter_In; auto).
  destruct (filter f evs); [destruct Hin'|discriminate].
Qed.

(** X4. There is no cap on the length of an utterance: a run in which
    every window holds speech prints no [Finalize] and no [Reply], and when
    it starts active it ends active with every transcribed segment of the
    passes run appended to the utterance. *)
Theorem speech_never_finalizes (cs : list cycle) (p p' : assistant_params)
    (evs : list event)
    (Hspeech : forall c, In c cs -> vad_simple c = true)
    (Hrun : main_loop p cs = Some (p', evs)) :
  count is_Finalize evs = 0%nat /\ count is_Reply evs = 0%nat /\
  (is_active p = true ->
   is_active p' = true /\
   current_segment p' =
     current_segment p ++ join (flat_map transcript (executed cs))).
Proof.
  assert (H0 : count is_Finalize evs = 0%nat /\ count is_Reply evs = 0%nat).
  { revert p evs Hrun. induction cs as [|c cs IH]; intros p evs Hrun.
    - injection Hrun as _ <-. split; reflexivity.
    - apply main_loop_inv in Hrun.
      destruct Hrun as (p1 & evs1 & Hb &
                        [(_ & -> & ->)|(_ & evs2 & Hr & ->)]);
        destruct (loop_body_counts _ _ _ _ _ Hb) as (Hrep & _ & _ & Hc);
        specialize (Hc (Hspeech c (or_introl eq_refl)));
        rewrite Hc in Hrep; [split; assumption|].
      rewrite !count_app, Hc, Hrep.
      exact (IH (fun c' H => Hspeech c' (or_intror H)) _ _ Hr). }
  destruct H0 as (H0 & H0').
  split; [exact H0|]. split; [exact H0'|].
  intros Ha. apply (main_loop_armed_appends cs p p' evs Ha Hrun).
  intros u. exact (count_zero_not_In is_Finalize evs (Finalize u) H0 eq_refl).
Qed.

Lemma speech_never_finalizes_witness :
  is_active (sample_params true "hi there" 7000) = true /\
  current_segment (sample_params true "hi there" 7000) =
    "hi" ++ join (flat_map transcript
                    (executed [speech_pass 6000 [" "];
                               speech_pass 7000 ["there"]])).
Proof.
  apply (speech_never_finalizes
           [speech_pass 6000 [" "]; speech_pass 7000 ["there"]]
           (sample_params true "hi" 5000) (sample_params true "hi there" 7000)
           [PartialText " "; PartialText "there"]).
  - intros c [<-|[<-|[]]]; reflexivity.
  - reflexivity.
  - reflexivity.
Defined.

(** X7. A speech verdict restarts the silence timer, whatever becomes of
    its transcription: a silent pass that follows a pass with speech no
    more than the threshold later (or at an earlier clock reading) prints
    nothing and changes nothing. *)
Theorem speech_restarts_silence_timer (p p1 : assistant_params)
    (c1 c2 : cycle) (evs1 : list event) (r1 : bool)
    (Hv1 : vad_simple c1 = true)
    (Hb : loop_body p c1 = Some (p1, evs1, r1))
    (Hv2 : vad_simple c2 = false)
    (Hrange : - 2 ^ 63 <= clock_now c2 - clock_now c1 < 2 ^ 63)
    (Hsoon : clock_now c2 - clock_now c1 <= silence_threshold_ms p) :
  loop_body p1 c2 = Some (p1, [], sdl_poll_events c2).
Proof.
  apply loop_body_silence_idle; [exact Hv2|].
  pose proof (loop_body_last_speech_time _ _ _ _ _ Hb) as Ht.
  rewrite Hv1 in Ht.
  destruct (loop_body_config _ _ _ _ _ Hb) as (_ & Hthr).
  destruct (should_finalize p1 (clock_now c2)) eqn:Hf; [|reflexivity].
  apply should_finalize_iff in Hf. destruct Hf as (_ & _ & He).
  unfold elapsed_since_last_speech in He.
  rewrite Ht, int64_wrap_small in He by exact Hrange. lia.
Qed.

Lemma speech_restarts_silence_timer_witness :
  loop_body (sample_params true "hi" 7000) (silent_pass 8000)
  = Some (sample_params true "hi" 7000, [], true).
Proof.
  apply (speech_restarts_silence_timer (sample_params true "hi" 5000)
           (sample_params true "hi" 7000) (failed_pass 7000)
           (silent_pass 8000) [TranscribeFailed] true);
    try reflexivity; cbn; lia.
Defined.

(** X8. No exception escapes: [substr] is only reached with a start
    inside the line, so [call_ollama] always returns a reply and every run
    of the loop goes through. *)
Theorem no_exception_escapes :
  (forall init perform prompt, call_ollama init perform prompt <> None) /\
  (forall p c, loop_body p c <> None) /\
  (forall p cs, main_loop p cs <> None).
Proof.
  split; [|split].
  - intros init perform prompt.
    destruct (call_ollama_returns init perform prompt) as (r & l & ->).
    discriminate.
  - intros p c. destruct (loop_body_returns p c) as (p' & evs & r & ->).
    discriminate.
  - intros p cs. destruct (main_loop_returns cs p) as (p' & evs & ->).
    discriminate.
Qed.

(** * Further properties of [call_ollama] *)

Lemma write_chunks (chunks : list string) (acc : string) :
  fold_left (fun response c => WriteCallback c response) chunks acc
  = acc ++ join chunks.
Proof.
  revert acc. induction chunks as [|c l IH]; intros acc; cbn [fold_left].
  - cbn. rewrite append_nil_r. reflexivity.
  - rewrite IH. unfold WriteCallback. rewrite join_cons, append_assoc.
    reflexivity.
Qed.

(** X9. The reply does not depend on how libcurl cuts the body into
    chunks for the write callback: two transfers whose chunks concatenate
    to the same body give the same reply. *)
Theorem chunking_is_irrelevant (init : bool)
    (perform perform' : string -> curl_result) (prompt : string)
    (chunks chunks' : list string)
    (H1 : perform (json_body prompt) = CURLE_OK chunks)
    (H2 : perform' (json_body prompt) = CURLE_OK chunks')
    (Hsame : join chunks = join chunks') :
  call_ollama init perform prompt = call_ollama init perform' prompt.
Proof.
  unfold call_ollama. rewrite H1, H2, !write_chunks, Hsame. reflexivity.
Qed.

Lemma chunking_is_irrelevant_witness :
  call_ollama true (fun _ => CURLE_OK ["{"; spaced_line; "}"]) "hello"
  = call_ollama true (fun _ => CURLE_OK ["{" ++ spaced_line; ""; "}"]) "hello".
Proof.
  apply (chunking_is_irrelevant true _ _ "hello"
           ["{"; spaced_line; "}"] ["{" ++ spaced_line; ""; "}"]);
    reflexivity.
Defined.

Lemma unlines_cons (line : string) (l : list string) :
  unlines (line :: l) = line ++ String newline (unlines l).
Proof.
  unfold unlines. cbn [map]. rewrite join_cons, append_assoc. reflexivity.
Qed.

Lemma closed_cons (c : ascii) (s : string) :
  closed (String c s) =
  String c (if Ascii.eqb c newline && String.eqb s "" then "" else closed s).
Proof.
  unfold closed. destruct s as [|d s].
  - cbn [ends_with]. destruct (Ascii.eqb c newline); reflexivity.
  - rewrite andb_false_r.
    change (ends_with newline (String c (String d s)))
      with (ends_with newline (String d s)).
    destruct (ends_with newline (String d s)); reflexivity.
Qed.

Lemma getlines_unlines (s : string) :
  (forall line, unlines (getlines s line true) = line ++ closed s) /\
  unlines (getlines s "" false) = if String.eqb s "" then "" else closed s.
Proof.
  induction s as [|c s (IHt & IHf)].
  - split; [intros line|reflexivity]. cbn [getlines]. rewrite unlines_cons.
    reflexivity.
  - assert (Hstep : forall line any,
              unlines (getlines (String c s) line any)
              = line ++ closed (String c s)).
    { intros line any. cbn [getlines]. rewrite closed_cons.
      destruct (Ascii.eqb c newline) eqn:Hc.
      - apply Ascii.eqb_eq in Hc. subst c.
        rewrite unlines_cons, IHf. cbn [andb]. reflexivity.
      - rewrite IHt, append_assoc. reflexivity. }
    split; [intros line; apply Hstep|]. rewrite Hstep. reflexivity.
Qed.

Lemma has_char_append (c : ascii) (a b : string) :
  has_char c (a ++ b) = has_char c a || has_char c b.
Proof.
  induction a as [|d a IH]; [reflexivity|]. cbn [append has_char].
  rewrite IH, orb_assoc. reflexivity.
Qed.

Lemma getlines_no_newline (s line : string) (any : bool) :
  has_char newline line = false ->
  Forall (fun l => has_char newline l = false) (getlines s line any).
Proof.
  revert line any. induction s as [|c s IH]; intros line any Hl.
  - cbn [getlines]. destruct any; auto.
  - cbn [getlines]. destruct (Ascii.eqb c newline) eqn:Hc.
    + constructor; [exact Hl|]. apply IH. reflexivity.
    + apply IH. rewrite has_char_append, Hl. cbn. rewrite Hc. reflexivity.
Qed.

(** X10. Cutting the body into lines loses nothing but a missing last
    newline: the lines read by [std::getline], each closed by a newline and
    put back together, give the body itself when it is empty or ends with a
    newline and the body followed by a newline otherwise; and no line holds
    a newline. *)
Theorem getlines_round_trip (body : string) :
  unlines (getlines body "" false) = terminated body /\
  Forall (fun l => has_char newline l = false) (getlines body "" false).
Proof.
  split.
  - rewrite (proj2 (getlines_unlines body)). unfold terminated, closed.
    destruct (String.eqb_spec body "") as [->|_]; reflexivity.
  - apply getlines_no_newline. reflexivity.
Qed.

Lemma getlines_app (a b line : string) (any : bool) :
  getlines (a ++ String newline b) line any
  = (getlines (a ++ String newline "") line any ++ getlines b "" false)%list.
Proof.
  revert line any. induction a as [|c a IH]; intros line any.
  - cbn [append getlines]. rewrite Ascii.eqb_refl. reflexivity.
  - cbn [append getlines]. destruct (Ascii.eqb c newline).
    + rewrite IH. reflexivity.
    + apply IH.
Qed.

Lemma parse_line_acc (result line : string) :
  exists fragment,
    parse_line "" line = Some fragment /\
    parse_line result line = Some (result ++ fragment).
Proof.
  unfold parse_line.
  destruct (negb (find line response_key 0 =? npos));
    [|exists ""; rewrite append_nil_r; auto].
  set (start := size_t_wrap (find line response_open 0 + 11)).
  destruct (negb (start =? npos) && negb (find line quote_str start =? npos))
    eqn:E; [|exists ""; rewrite append_nil_r; auto].
  apply andb_true_iff in E. destruct E as (_ & E).
  apply negb_true_iff, Z.eqb_neq, find_answer_in_string in E.
  unfold substr. rewrite E. eexists. split; reflexivity.
Qed.

Lemma parse_lines_acc (lines : list string) (result : string) :
  exists reply,
    parse_lines "" lines = Some reply /\
    parse_lines result lines = Some (result ++ reply).
Proof.
  revert result. induction lines as [|line rest IH]; intros result.
  - exists "". cbn. rewrite append_nil_r. auto.
  - cbn [parse_lines].
    destruct (parse_line_acc result line) as (f & Hf & ->). rewrite Hf.
    destruct (IH (result ++ f)) as (r & Hr & E1).
    destruct (IH f) as (r' & Hr' & E2).
    rewrite Hr in Hr'. injection Hr' as <-. rewrite E1, E2.
    exists (f ++ r). rewrite append_assoc. auto.
Qed.

Lemma parse_lines_app (l1 l2 : list string) (result : string) :
  exists r1 r2,
    parse_lines "" l1 = Some r1 /\ parse_lines "" l2 = Some r2 /\
    parse_lines result (l1 ++ l2)%list = Some (result ++ r1 ++ r2).
Proof.
  revert result. induction l1 as [|line rest IH]; intros result.
  - destruct (parse_lines_acc l2 result) as (r2 & H2 & H2').
    exists "", r2. cbn [app]. auto.
  - cbn [app parse_lines].
    destruct (parse_line_acc result line) as (f & Hf & ->). rewrite Hf.
    destruct (IH (result ++ f)) as (r1 & r2 & H1 & H2 & E1).
    destruct (parse_lines_acc rest f) as (r1' & H1' & E2).
    rewrite H1 in H1'. injection H1' as <-. rewrite E1, E2.
    exists (f ++ r1), r2. rewrite !append_assoc. auto.
Qed.

(** X11. The reply is built line by line: the reply to a body made of a
    first part closed by a newline and a second part is the reply to the
    first part followed by the reply to the second. *)
Theorem reply_of_joined_bodies (a b prompt : string) :
  exists ra rb,
    call_ollama true (fun _ => CURLE_OK [a ++ String newline ""]) prompt
      = Some (ra, []) /\
    call_ollama true (fun _ => CURLE_OK [b]) prompt = Some (rb, []) /\
    call_ollama true (fun _ => CURLE_OK [a ++ String newline b]) prompt
      = Some (ra ++ rb, []).
Proof.
  unfold call_ollama. rewrite !write_chunks. cbn [join fold_right].
  rewrite !append_nil_r. cbn [append]. rewrite (getlines_app a b "" false).
  destruct (parse_lines_app (getlines (a ++ String newline "") "" false)
              (getlines b "" false) "") as (ra & rb & -> & -> & ->).
  exists ra, rb. auto.
Qed.

(** The characters before the index answered by a search for a quote
    hold no quote. *)
Lemma no_quote_before_found (s : string) (i : Z) (n : nat) :
  Z.of_nat n <= find_here s quote_str i - i ->
  has_char dquote (take n s) = false.
Proof.
  revert i n. induction s as [|c s IH]; intros i n Hn.
  - destruct n; reflexivity.
  - destruct n as [|n]; [reflexivity|]. cbn [take has_char].
    cbn [find_here quote_str String.prefix] in Hn.
    destruct (ascii_dec dquote c) as [<-|Hc].
    + rewrite prefix_nil in Hn. lia.
    + assert (Hcb : Ascii.eqb c dquote = false)
        by (apply Ascii.eqb_neq; congruence).
      rewrite Hcb. cbn [orb]. apply (IH (i + 1)). lia.
Qed.

Lemma parse_line_no_quote (result line result' : string) :
  parse_line result line = Some result' ->
  has_char dquote result = false -> has_char dquote result' = false.
Proof.
  unfold parse_line.
  destruct (negb (find line response_key 0 =? npos)); [|congruence].
  set (start := size_t_wrap (find line response_open 0 + 11)).
  destruct (negb (start =? npos)); cbn [andb]; [|congruence].
  destruct (negb (find line quote_str start =? npos)) eqn:E; [|congruence].
  apply negb_true_iff, Z.eqb_neq in E.
  pose proof (find_answer_in_string _ _ _ E) as Hin.
  unfold substr. rewrite Hin. intros [= <-] Hr.
  rewrite has_char_append, Hr. cbn [orb].
  unfold find in *. rewrite Hin in *.
  set (rest := skip (Z.to_nat start) line) in *.
  apply (no_quote_before_found rest start).
  destruct (find_here_range rest quote_str start) as [H|H]; [contradiction|].
  unfold size_t_wrap, size_t_modulus.
  pose proof (Z.mod_le (find_here rest quote_str start - start) (2 ^ 64)).
  pose proof (Z.mod_pos_bound (find_here rest quote_str start - start)
                (2 ^ 64)).
  lia.
Qed.

Lemma parse_lines_no_quote (lines : list string) (result reply : string) :
  parse_lines result lines = Some reply ->
  has_char dquote result = false -> has_char dquote reply = false.
Proof.
  revert result. induction lines as [|line rest IH]; intros result.
  - intros [= <-] H. exact H.
  - cbn [parse_lines].
    destruct (parse_line result line) as [r|] eqn:E; [|discriminate].
    intros Hrest Hr. apply (IH r Hrest).
    exact (parse_line_no_quote _ _ _ E Hr).
Qed.

(** X12. The reply never holds a double quote: each fragment stops at the
    first quote met from where it starts. *)
Theorem reply_has_no_quote (init : bool) (perform : string -> curl_result)
    (prompt reply : string) (log : list event)
    (Hcall : call_ollama init perform prompt = Some (reply, log)) :
  has_char dquote reply = false.
Proof.
  unfold call_ollama in Hcall. destruct init; [|injection Hcall as <- _; auto].
  destruct (perform (json_body prompt)) as [chunks|code];
    [|injection Hcall as <- _; auto].
  destruct (parse_lines "" _) as [r|] eqn:E; [|discriminate].
  injection Hcall as <- _. exact (parse_lines_no_quote _ _ _ E eq_refl).
Qed.

Lemma reply_has_no_quote_witness : has_char dquote "678," = false.
Proof.
  exact (reply_has_no_quote true (fun _ => CURLE_OK [spaced_line]) "hello"
           "678," [] eq_refl).
Defined.

(** Every line read is a piece of the text it was read from. *)
Lemma getlines_pieces (s line : string) (any : bool) (l : string) :
  In l (getlines s line any) ->
  exists pre post, line ++ s = pre ++ l ++ post.
Proof.
  revert line any. induction s as [|c s IH]; intros line any; cbn [getlines].
  - destruct any; [|intros []]. intros [<-|[]]. exists "", "". reflexivity.
  - destruct (Ascii.eqb c newline).
    + intros [<-|Hin].
      * exists "", (String c s). reflexivity.
      * destruct (IH _ _ Hin) as (pre & post & E). cbn [append] in E.
        exists (line ++ String c pre), post. rewrite E, append_assoc.
        reflexivity.
    + intros Hin. destruct (IH _ _ Hin) as (pre & post & E).
      exists pre, post. rewrite <- E, append_assoc. reflexivity.
Qed.

Lemma parse_lines_without_key (lines : list string) (result : string) :
  (forall l, In l lines -> find l response_key 0 = npos) ->
  parse_lines result lines = Some result.
Proof.
  induction lines as [|line rest IH]; intros Hno; [reflexivity|].
  cbn [parse_lines]. unfold parse_line.
  rewrite (Hno line (or_introl eq_refl)), Z.eqb_refl. cbn [negb].
  apply IH. intros l Hl. apply Hno. right. exact Hl.
Qed.

(** A search that answers [npos] on a text shorter than [npos] shows that
    the pattern does not occur. *)
Lemma not_found_not_substring (S W : string) :
  size S < npos -> find S W 0 = npos -> ~ contiguous_substring W S.
Proof.
  intros Hfit Hnot (pre & post & ->). rewrite find_from_start in Hnot.
  pose proof (find_here_complete pre W post 0) as Hr.
  rewrite !size_append in Hfit.
  pose proof (size_nonneg W). pose proof (size_nonneg post). lia.
Qed.

(** X13. A body in which the text [q response q :] does not occur gives
    the empty reply with nothing reported: what the service says in any
    other member, an error message for one, is dropped. *)
Theorem body_without_response_is_dropped
    (perform : string -> curl_result) (prompt : string)
    (chunks : list string)
    (Hok : perform (json_body prompt) = CURLE_OK chunks)
    (Hno : ~ contiguous_substring response_key (join chunks)) :
  call_ollama true perform prompt = Some ("", []).
Proof.
  unfold call_ollama. rewrite Hok, write_chunks. cbn [append].
  rewrite parse_lines_without_key; [reflexivity|].
  intros l Hl. rewrite find_from_start.
  destruct (find_here_sound l response_key 0) as [H|(a & b & -> & _)];
    [exact H|].
  exfalso. apply Hno. destruct (getlines_pieces _ _ _ _ Hl) as (pre & post & E).
  cbn [append] in E. exists (pre ++ a), (b ++ post).
  rewrite E, !append_assoc. reflexivity.
Qed.

Lemma body_without_response_is_dropped_witness :
  call_ollama true (fun _ => CURLE_OK [error_line]) "hello" = Some ("", []).
Proof.
  apply (body_without_response_is_dropped (fun _ => CURLE_OK [error_line])
           "hello" [error_line] eq_refl).
  apply not_found_not_substring; reflexivity.
Defined.

(** * Properties of the command line *)

(** The loop of [parse_args] eats the arguments one or two at a time. *)
Lemma args_ind2 (P : list string -> Prop) :
  P [] -> (forall a, P [a]) -> (forall a v l, P l -> P (a :: v :: l)) ->
  forall l, P l.
Proof.
  intros H0 H1 H2.
  assert (H : forall l, P l /\ forall a, P (a :: l)).
  { induction l as [|v l (IHl & IHa)]; [split; auto|].
    split; [apply IHa|]. intros a. apply H2. exact IHl. }
  intros l. apply H.
Qed.

Lemma parse_args_single (stof : string -> stox Z) (argv0 a : string)
    (p p' : whisper_params) (b : bool) :
  parse_args stof argv0 [a] p <> ParseReturn b p'.
Proof. cbn [parse_args]. destruct (option_of a); discriminate. Qed.

Lemma parse_args_returns_true (stof : string -> stox Z) (argv0 : string)
    (args : list string) :
  forall p b p', parse_args stof argv0 args p = ParseReturn b p' -> b = true.
Proof.
  induction args as [| a | a v l IH] using args_ind2; intros p b p'.
  - intros [= <- _]. reflexivity.
  - intros H. destruct (parse_args_single _ _ _ _ _ _ H).
  - cbn [parse_args]. destruct (option_of a); try discriminate.
    + destruct (stoi v); [apply IH|discriminate].
    + destruct (stof v); [apply IH|discriminate].
    + apply IH.
Qed.

(** A series of arguments that parses to the end can be followed by
    more: the rest is parsed from the parameters it gives. *)
Lemma parse_args_app (stof : string -> stox Z) (argv0 : string)
    (args more : list string) :
  forall p b p1,
    parse_args stof argv0 args p = ParseReturn b p1 ->
    parse_args stof argv0 (args ++ more)%list p
    = parse_args stof argv0 more p1.
Proof.
  induction args as [| a | a v l IH] using args_ind2; intros p b p1.
  - intros [= _ <-]. reflexivity.
  - intros H. destruct (parse_args_single _ _ _ _ _ _ H).
  - cbn [app parse_args]. destruct (option_of a); try discriminate.
    + destruct (stoi v); [apply IH|discriminate].
    + destruct (stof v); [apply IH|discriminate].
    + apply IH.
Qed.

(** X14. Options are applied from left to right, each on the parameters
    left by those before it: when a first series of arguments parses to the
    end, parsing it followed by a second series is parsing the second from
    the parameters the first gives (so of two settings of one parameter the
    later wins). *)
Theorem options_apply_left_to_right (stof : string -> stox Z)
    (argv0 : string) (args more : list string) (p p1 : whisper_params)
    (Hfirst : whisper_params_parse stof (argv0 :: args) p
              = ParseReturn true p1) :
  whisper_params_parse stof (argv0 :: args ++ more) p
  = whisper_params_parse stof (argv0 :: more) p1.
Proof. exact (parse_args_app stof argv0 args more p true p1 Hfirst). Qed.

Lemma options_apply_left_to_right_witness :
  whisper_params_parse no_stof
    ("prog" :: ["-t"; "8"; "--step"; "500"] ++ ["-t"; "2"])
    (default_whisper_params 16)
  = whisper_params_parse no_stof ("prog" :: ["-t"; "2"])
      (set_step_ms 500 (set_n_threads 8 (default_whisper_params 16))).
Proof.
  apply (options_apply_left_to_right no_stof "prog"
           ["-t"; "8"; "--step"; "500"] ["-t"; "2"]).
  reflexivity.
Defined.

Lemma option_of_unknown (arg : string) :
  ~ In arg (help_options ++ value_options)%list -> option_of arg = OptUnknown.
Proof.
  intros Hno. unfold option_of.
  repeat match goal with
  | |- context [String.eqb arg ?s] =>
      destruct (String.eqb_spec arg s) as [->|_];
        [exfalso; apply Hno; cbn; tauto|]
  end.
  reflexivity.
Qed.

Lemma option_of_help (arg : string) :
  In arg help_options -> option_of arg = OptHelp.
Proof. intros [<-|[<-|[]]]; reflexivity. Qed.

Lemma option_of_value (arg : string) :
  In arg value_options ->
  option_of arg <> OptHelp /\ option_of arg <> OptUnknown.
Proof.
  cbn [value_options In]. intros H.
  repeat (destruct H as [<-|H]; [split; discriminate|]). destruct H.
Qed.

(** X15. Help and unknown arguments end the program with status 0: after
    arguments that parse to the end, [-h], [--help] or any argument that is
    none of the known spellings makes the parser exit with status 0, an
    unknown one being reported first; the usage text shows the values set
    by the options before it, and the arguments after it are not looked
    at. *)
Theorem help_and_unknown_exit_zero (stof : string -> stox Z)
    (argv0 arg : string) (args rest : list string) (p p1 : whisper_params)
    (Hfirst : whisper_params_parse stof (argv0 :: args) p
              = ParseReturn true p1) :
  (In arg help_options ->
   whisper_params_parse stof (argv0 :: args ++ arg :: rest) p
   = ParseExit 0 [UsageText argv0 p1]) /\
  (~ In arg (help_options ++ value_options)%list ->
   whisper_params_parse stof (argv0 :: args ++ arg :: rest) p
   = ParseExit 0 [UnknownArgument arg; UsageText argv0 p1]).
Proof.
  cbn [whisper_params_parse] in *.
  rewrite (parse_args_app stof argv0 args (arg :: rest) p true p1 Hfirst).
  cbn [parse_args]. split; intros H.
  - rewrite (option_of_help arg H). reflexivity.
  - rewrite (option_of_unknown arg H). reflexivity.
Qed.

Lemma help_and_unknown_exit_zero_witness :
  whisper_params_parse no_stof
    ("prog" :: ["-t"; "8"] ++ "--wake-word" :: ["hello"])
    (default_whisper_params 16)
  = ParseExit 0 [UnknownArgument "--wake-word";
                 UsageText "prog" (set_n_threads 8 (default_whisper_params 16))].
Proof.
  apply (proj2 (help_and_unknown_exit_zero no_stof "prog" "--wake-word"
                  ["-t"; "8"] ["hello"] (default_whisper_params 16)
                  (set_n_threads 8 (default_whisper_params 16)) eq_refl)).
  cbn. intros H.
  repeat (destruct H as [H|H]; [discriminate H|]). exact H.
Defined.

(** X16. An option that takes a value and comes last has no value to
    take: after arguments that parse to the end, any of the value-taking
    spellings as last argument makes the parser read [argv[argc]], the null
    pointer that closes [argv], as a string. *)
Theorem last_option_without_value (stof : string -> stox Z)
    (argv0 flag : string) (args : list string) (p p1 : whisper_params)
    (Hfirst : whisper_params_parse stof (argv0 :: args) p
              = ParseReturn true p1)
    (Hflag : In flag value_options) :
  whisper_params_parse stof (argv0 :: args ++ [flag]) p = ParseNullString.
Proof.
  cbn [whisper_params_parse] in *.
  rewrite (parse_args_app stof argv0 args [flag] p true p1 Hfirst).
  cbn [parse_args]. destruct (option_of_value flag Hflag) as (H1 & H2).
  destruct (option_of flag); try reflexivity; contradiction.
Qed.

Lemma last_option_without_value_witness :
  whisper_params_parse no_stof ("prog" :: ["-l"; "de"] ++ ["--model"])
    (default_whisper_params 16)
  = ParseNullString.
Proof.
  apply (last_option_without_value no_stof "prog" "--model" ["-l"; "de"]
           (default_whisper_params 16)
           (set_language "de" (default_whisper_params 16)) eq_refl).
  cbn. tauto.
Defined.

Lemma stoi_in_range (s : string) (n : Z) :
  stoi s = Converted n -> int_range n.
Proof.
  unfold stoi.
  destruct (match skip_space s with
            | EmptyString => (false, skip_space s)
            | String c rest =>
                if Ascii.eqb c "-" then (true, rest)
                else if Ascii.eqb c "+" then (false, rest)
                else (false, skip_space s)
            end) as [negative s2].
  destruct (digits s2 None) as [v|]; [|discriminate].
  destruct (in_int_range (if negative then - v else v)) eqn:E; [|discriminate].
  intros [= <-]. unfold in_int_range in E. unfold int_range.
  apply andb_true_iff in E. destruct E as (E1 & E2).
  apply Z.leb_le in E1. apply Z.ltb_lt in E2. lia.
Qed.

(** What every branch of the chain preserves holds of the parameters the
    parser returns. *)
Lemma parse_args_preserves (Inv : whisper_params -> Prop)
    (stof : string -> stox Z) (argv0 : string) (args : list string) :
  (forall arg, kind_preserves Inv (option_of arg)) ->
  forall p b p',
    Inv p -> parse_args stof argv0 args p = ParseReturn b p' -> Inv p'.
Proof.
  intros Hkind.
  induction args as [| a | a v l IH] using args_ind2; intros p b p' Hp.
  - intros [= _ <-]. exact Hp.
  - intros H. destruct (parse_args_single _ _ _ _ _ _ H).
  - cbn [parse_args]. pose proof (Hkind a) as Ha.
    destruct (option_of a); cbn [kind_preserves] in Ha; try discriminate.
    + destruct (stoi v) as [n|] eqn:E; [|discriminate].
      apply IH. apply Ha; [exact (stoi_in_range _ _ E)|exact Hp].
    + destruct (stof v); [|discriminate]. apply IH. apply Ha. exact Hp.
    + apply IH. apply Ha. exact Hp.
Qed.

Lemma int32_wrap_range (z : Z) : int_range (int32_wrap z).
Proof.
  unfold int_range, int32_wrap.
  pose proof (Z.mod_pos_bound (z + 2 ^ 31) (2 ^ 32)). lia.
Qed.

(** X17. The parser keeps the [int] parameters in the range of an [int]:
    the defaults are in range, whatever the number of hardware threads
    reported, and parameters returned by the parser from parameters in
    range are in range (a number that does not fit makes [std::stoi]
    throw). *)
Theorem parsed_ints_fit :
  (forall hardware_concurrency,
     ints_in_range (default_whisper_params hardware_concurrency)) /\
  (forall stof argv p b p',
     ints_in_range p ->
     whisper_params_parse stof argv p = ParseReturn b p' ->
     ints_in_range p').
Proof.
  split.
  - intros hc. unfold ints_in_range, default_whisper_params.
    cbn [n_threads step_ms length_ms keep_ms capture_id max_tokens audio_ctx].
    pose proof (int32_wrap_range hc) as H. unfold int_range in *. lia.
  - intros stof [|argv0 args] p b p' Hp; [intros [= _ <-]; exact Hp|].
    cbn [whisper_params_parse].
    apply (parse_args_preserves ints_in_range stof argv0 args); [|exact Hp].
    intros arg. unfold option_of.
    repeat match goal with
    | |- context [if ?c then _ else _] => destruct c
    end; cbn [kind_preserves]; try exact I;
      intros x q; intros; unfold ints_in_range in *; cbn; tauto.
Qed.

Lemma parsed_ints_fit_witness :
  ints_in_range (set_capture_id 3 (default_whisper_params 0)).
Proof.
  apply (proj2 parsed_ints_fit no_stof ["prog"; "-c"; " 3rd"]
           (default_whisper_params 0) true).
  - exact (proj1 parsed_ints_fit 0).
  - reflexivity.
Defined.

(** X18. No option reaches the switches or the output file name:
    [translate], [no_fallback], [print_special], [no_context],
    [no_timestamps], [tinydiarize], [save_audio], [use_gpu], [flash_attn]
    and [fname_out] come out of the parser as they went in. *)
Theorem switches_are_not_options (stof : string -> stox Z)
    (argv : list string) (p p' : whisper_params) (b : bool)
    (Hparse : whisper_params_parse stof argv p = ParseReturn b p') :
  same_switches p p'.
Proof.
  assert (Hrefl : same_switches p p) by (unfold same_switches; tauto).
  destruct argv as [|argv0 args]; [injection Hparse as _ <-; exact Hrefl|].
  cbn [whisper_params_parse] in Hparse.
  apply (parse_args_preserves (same_switches p) stof argv0 args)
    with (p := p) (b := b); [|exact Hrefl|exact Hparse].
  intros arg. unfold option_of.
  repeat match goal with
  | |- context [if ?c then _ else _] => destruct c
  end; cbn [kind_preserves]; try exact I;
    intros x q; intros; unfold same_switches in *; cbn; tauto.
Qed.

Lemma switches_are_not_options_witness :
  same_switches (default_whisper_params 16)
    (set_model "m.bin" (set_language "de" (default_whisper_params 16))).
Proof.
  exact (switches_are_not_options no_stof
           ["prog"; "--language"; "de"; "-m"; "m.bin"]
           (default_whisper_params 16) _ true eq_refl).
Defined.

Lemma parse_args_exit_zero (stof : string -> stox Z) (argv0 : string)
    (args : list string) :
  forall p code printed,
    parse_args stof argv0 args p = ParseExit code printed ->
    code = 0 /\ printed <> [].
Proof.
  induction args as [| a | a v l IH] using args_ind2; intros p code printed.
  - discriminate.
  - cbn [parse_args]. destruct (option_of a); try discriminate;
      intros H; injection H as <- <-; split; try reflexivity; discriminate.
  - cbn [parse_args]. destruct (option_of a).
    + intros H; injection H as <- <-; split; try reflexivity; discriminate.
    + destruct (stoi v); [apply IH|discriminate].
    + destruct (stof v); [apply IH|discriminate].
    + apply IH.
    + intros H; injection H as <- <-; split; try reflexivity; discriminate.
Qed.

(** * Properties of [main] *)

(** X19. The exit status of the program: it is 0 or 1; it is 1 exactly
    when the arguments parse to the end and the audio device cannot be
    opened, in which case the loop has not run; the parser itself never
    makes it 1, since it returns true whenever it returns; and events of
    the loop are printed only after the start banner. *)
Theorem main_exit_status (hardware_concurrency : Z)
    (stof : string -> stox Z) (argv : list string) (audio_init : bool)
    (cs : list cycle) (code : Z) (out : list startup_output)
    (evs : list event)
    (Hmain : main hardware_concurrency stof argv audio_init cs
             = Exited code out evs) :
  (code = 0 \/ code = 1) /\
  (code = 1 <->
   audio_init = false /\
   exists wp, whisper_params_parse stof argv
                (default_whisper_params hardware_concurrency)
              = ParseReturn true wp) /\
  (code = 1 -> out = [AudioInitFailed] /\ evs = []) /\
  (evs <> [] -> out = [SystemStarted "test"] /\ audio_init = true /\
                code = 0).
Proof.
  unfold main in Hmain.
  destruct (whisper_params_parse stof argv
              (default_whisper_params hardware_concurrency))
    as [b wp|c printed|e|] eqn:Hp; try discriminate.
  - assert (Hb : b = true).
    { destruct argv as [|argv0 args]; [injection Hp as <- _; reflexivity|].
      exact (parse_args_returns_true _ _ _ _ _ _ Hp). }
    subst b. destruct audio_init; cbn [negb] in Hmain.
    + destruct (main_loop initial_params cs) as [[p evs']|]; [|discriminate].
      destruct (loop_left cs); [|discriminate].
      injection Hmain as <- <- <-.
      split; [now left|]. split; [split; [discriminate|intros (H & _); discriminate]|].
      split; [discriminate|]. intros _. auto.
    + injection Hmain as <- <- <-.
      split; [now right|]. split; [split; [intros _; split; eauto|reflexivity]|].
      split; [auto|]. intros H. now destruct H.
  - injection Hmain as <- <- <-.
    assert (Hc : c = 0 /\ printed <> []).
    { destruct argv as [|argv0 args]; [discriminate|].
      exact (parse_args_exit_zero _ _ _ _ _ _ Hp). }
    destruct Hc as (-> & Hne).
    split; [now left|]. split; [split; [discriminate|intros (_ & wp & H); discriminate]|].
    split; [discriminate|]. intros H. now destruct H.
Qed.

Lemma main_exit_status_witness :
  main 16 no_stof ["prog"; "-t"; "2"] false [speech_pass 5000 ["test"]]
    = Exited 1 [AudioInitFailed] [] /\
  (1 = 0 \/ 1 = 1).
Proof.
  split; [reflexivity|].
  exact (proj1 (main_exit_status 16 no_stof ["prog"; "-t"; "2"] false
                  [speech_pass 5000 ["test"]] 1 [AudioInitFailed] [] eq_refl)).
Defined.

Lemma option_of_int (flag : string) :
  In flag int_options -> exists set, option_of flag = OptInt set.
Proof.
  cbn [int_options In]. intros H.
  repeat (destruct H as [<-|H]; [eexists; reflexivity|]). destruct H.
Qed.

(** X20. A number that cannot be read stops the program abnormally: when
    the value given to one of the integer options has no digit where a
    number is expected, or does not fit an [int], the exception of
    [std::stoi] leaves the parser and [main] uncaught, so the program ends
    without usage text and without exit status of its own. *)
Theorem bad_number_aborts (hardware_concurrency : Z)
    (stof : string -> stox Z) (argv0 flag value : string)
    (args rest : list string) (p1 : whisper_params) (e : stox_error)
    (audio_init : bool) (cs : list cycle)
    (Hfirst : whisper_params_parse stof (argv0 :: args)
                (default_whisper_params hardware_concurrency)
              = ParseReturn true p1)
    (Hflag : In flag int_options)
    (Hbad : stoi value = Thrown e) :
  whisper_params_parse stof (argv0 :: args ++ flag :: value :: rest)
    (default_whisper_params hardware_concurrency) = ParseThrow e /\
  main hardware_concurrency stof (argv0 :: args ++ flag :: value :: rest)
    audio_init cs = Aborted.
Proof.
  assert (Hp : whisper_params_parse stof
                 (argv0 :: args ++ flag :: value :: rest)
                 (default_whisper_params hardware_concurrency)
               = ParseThrow e).
  { cbn [whisper_params_parse] in *.
    rewrite (parse_args_app stof argv0 args _ _ true p1 Hfirst).
    cbn [parse_args]. destruct (option_of_int flag Hflag) as [set ->].
    rewrite Hbad. reflexivity. }
  split; [exact Hp|]. unfold main. rewrite Hp. reflexivity.
Qed.

Lemma bad_number_aborts_witness :
  main 16 no_stof ("prog" :: ["-l"; "en"] ++ "--step" :: "99999999999" :: [])
    true [] = Aborted.
Proof.
  apply (bad_number_aborts 16 no_stof "prog" "--step" "99999999999"
           ["-l"; "en"] [] (set_language "en" (default_whisper_params 16))
           out_of_range true [] eq_refl).
  - cbn. tauto.
  - reflexivity.
Defined.
